(** * drivedantic: a mirror of a remote folder tree onto the local disk

    Shallow embedding of [main.py] and the properties of its path
    sanitizer, download protocol, bounded job executor and folder
    traversal.

    Conventions.
    - A Python [str] is a [string]; [len] is [String.length].
    - A raised exception is a value of [exn]; a call that may raise
      returns a [result].  Every exception of the model is an instance
      of Python's [Exception], so [except Exception] catches it.
    - The standard library ([pathlib], [os.path], [concurrent.futures])
      is modelled from its CPython 3.11 sources, POSIX flavour.
    - The remote service and the faults of the operating system are
      inputs of the model: what the service answers to a request, and
      which calls the operating system refuses.
    - Console output and the handling of credentials in [main] are left
      out. *)

From Stdlib Require Import String Ascii ZArith Lia Bool List.
From stdpp Require Import base option list gmap strings relations.


Local Open Scope Z_scope.

(** ** Exceptions and results *)

Record exn := Exn { exn_class : string; exn_text : string }.

(** [str(e)] *)
Definition str_exn (e : exn) : string := exn_text e.

Definition ValueError (msg : string) : exn := Exn "ValueError" msg.
Definition IsADirectoryError (msg : string) : exn := Exn "IsADirectoryError" msg.
Definition FileExistsError (msg : string) : exn := Exn "FileExistsError" msg.
Definition FileNotFoundError (msg : string) : exn := Exn "FileNotFoundError" msg.

Inductive result (A : Type) : Type :=
| Ok (a : A)
| Raise (e : exn).
Arguments Ok {A} a.
Arguments Raise {A} e.

(** ** Python string operations *)

Module Py.

Definition len (s : string) : Z := Z.of_nat (String.length s).

(** [s[:n]] for [0 <= n] *)
Fixpoint take (n : nat) (s : string) : string :=
  match n, s with
  | S n', String c r => String c (take n' r)
  | _, _ => EmptyString
  end.

(** [s[n:]] for [0 <= n] *)
Fixpoint drop (n : nat) (s : string) : string :=
  match n, s with
  | S n', String c r => drop n' r
  | _, _ => s
  end.

(** [s.startswith(p)] *)
Fixpoint startswith (s p : string) : bool :=
  match p, s with
  | EmptyString, _ => true
  | String a p', String b s' => Ascii.eqb a b && startswith s' p'
  | String _ _, EmptyString => false
  end.

(** [s.endswith(p)] *)
Definition endswith (s p : string) : bool :=
  (String.length p <=? String.length s)%nat
  && String.eqb (drop (String.length s - String.length p) s) p.

(** [s.rfind(c)]: the highest index of [c] in [s], or [-1]. *)
Fixpoint rfind (c : ascii) (s : string) : Z :=
  match s with
  | EmptyString => -1
  | String a r =>
      let i := rfind c r in
      if 0 <=? i then i + 1
      else if Ascii.eqb a c then 0 else -1
  end.

(** [c in s] *)
Fixpoint contains (c : ascii) (s : string) : bool :=
  match s with
  | EmptyString => false
  | String a r => Ascii.eqb a c || contains c r
  end.

(** [s.lstrip(c)] *)
Fixpoint lstrip (c : ascii) (s : string) : string :=
  match s with
  | String a r => if Ascii.eqb a c then lstrip c r else s
  | EmptyString => EmptyString
  end.

(** [s.split(c)]: never the empty list; [''.split(c) == ['']]. *)
Fixpoint split (c : ascii) (s : string) : list string :=
  match s with
  | EmptyString => [EmptyString]
  | String a r =>
      if Ascii.eqb a c then EmptyString :: split c r
      else match split c r with
           | x :: xs => String a x :: xs
           | [] => [String a EmptyString]
           end
  end.

(** [sep.join(l)] *)
Fixpoint join (sep : string) (l : list string) : string :=
  match l with
  | [] => EmptyString
  | [x] => x
  | x :: rest => x +:+ sep +:+ join sep rest
  end.

(** [s * n] *)
Fixpoint mul (s : string) (n : nat) : string :=
  match n with
  | O => EmptyString
  | S n' => s +:+ mul s n'
  end.

(** [s[-1]] when [s] is not empty *)
Fixpoint last_char (s : string) : option ascii :=
  match s with
  | EmptyString => None
  | String a EmptyString => Some a
  | String _ r => last_char r
  end.

End Py.

(** ** [pathlib.PurePosixPath]

    A parsed path is its root ([''], ['/'] or ['//']) and the list of
    its components.  CPython keeps the root as the first element of
    [_parts]; here [parts] holds the components after the root only, so
    that [name] is the last element of [parts] or ['']. *)

Module PurePath.

Record t := Build { root : string; parts : list string }.

Definition sep : ascii := "/"%char.

(** [_PosixFlavour.splitroot] *)
Definition splitroot (part : string) : string * string :=
  match part with
  | String c _ =>
      if Ascii.eqb c sep then
        let stripped_part := Py.lstrip sep part in
        if Py.len part - Py.len stripped_part =? 2
        then ("//", stripped_part)
        else ("/", stripped_part)
      else ("", part)
  | EmptyString => ("", part)
  end.

Definition keep_component (x : string) : bool :=
  negb (String.eqb x "") && negb (String.eqb x ".").

(** [_Flavour.parse_parts] on one argument: the components between
    separators, without the empty ones and the ['.'] ones. *)
Definition parse_parts (part : string) : t :=
  let '(root, rel) := splitroot part in
  Build root (List.filter keep_component (Py.split sep rel)).

(** [PurePosixPath(s)] *)
Definition Path (s : string) : t := parse_parts s.

(** [PurePath.__str__] *)
Definition str (p : t) : string :=
  let s := root p +:+ Py.join "/" (parts p) in
  if String.eqb s "" then "." else s.

(** [PurePath.name] *)
Definition name (p : t) : string := List.last (parts p) "".

Definition has_suffix (name : string) : bool :=
  let i := Py.rfind "." name in
  (0 <? i) && (i <? Py.len name - 1).

(** [PurePath.suffix] *)
Definition suffix (p : t) : string :=
  let name := name p in
  if has_suffix name then Py.drop (Z.to_nat (Py.rfind "." name)) name else "".

(** [PurePath.stem] *)
Definition stem (p : t) : string :=
  let name := name p in
  if has_suffix name then Py.take (Z.to_nat (Py.rfind "." name)) name else name.

Definition empty_name_error (p : t) : exn :=
  ValueError ("PosixPath('" +:+ str p +:+ "') has an empty name").

(** [PurePath.with_name] *)
Definition with_name (p : t) (new_name : string) : result t :=
  if String.eqb (name p) "" then Raise (empty_name_error p)
  else
    let parsed := parse_parts new_name in
    if String.eqb new_name ""
       || match Py.last_char new_name with
          | Some c => Ascii.eqb c sep
          | None => false
          end
       || negb (String.eqb (root parsed) "")
       || negb (Nat.eqb (List.length (parts parsed)) 1)
    then Raise (ValueError ("Invalid name '" +:+ new_name +:+ "'"))
    else Ok (Build (root p) (List.removelast (parts p) ++ [new_name])).

(** [PurePath.with_stem] *)
Definition with_stem (p : t) (new_stem : string) : result t :=
  with_name p (new_stem +:+ suffix p).

(** [PurePath.with_suffix] *)
Definition with_suffix (p : t) (new_suffix : string) : result t :=
  if Py.contains sep new_suffix
  then Raise (ValueError ("Invalid suffix '" +:+ new_suffix +:+ "'"))
  else if (negb (String.eqb new_suffix "") && negb (Py.startswith new_suffix "."))
          || String.eqb new_suffix "."
  then Raise (ValueError ("Invalid suffix '" +:+ new_suffix +:+ "'"))
  else
    let name := name p in
    if String.eqb name "" then Raise (empty_name_error p)
    else
      let old_suffix := suffix p in
      let name :=
        if String.eqb old_suffix "" then name +:+ new_suffix
        else Py.take (String.length name - String.length old_suffix) name
             +:+ new_suffix in
      Ok (Build (root p) (List.removelast (parts p) ++ [name])).

End PurePath.

(** A component of a parsed path: not empty, not ['.'], no separator. *)
Definition component (x : string) : Prop :=
  Py.contains PurePath.sep x = false /\ PurePath.keep_component x = true.

(** [posixpath.join(a, b)] *)
Definition os_path_join (a b : string) : string :=
  if Py.startswith b "/" then b
  else if String.eqb a "" || Py.endswith a "/" then a +:+ b
  else a +:+ "/" +:+ b.

(** ** The path sanitizer ([sanitize_path]) *)

Definition sanitize_path (path : string) : result PurePath.t :=
  let stem := PurePath.stem (PurePath.Path path) in
  let stem := if 250 <? Py.len stem then Py.take 245 stem else stem in
  PurePath.with_stem (PurePath.Path path) stem.

(** The path [sanitize_path] returns when it cuts the stem: the same
    root and directories, and the name made of the first 245 characters
    of the stem followed by the suffix. *)
Definition truncated (p : PurePath.t) : PurePath.t :=
  PurePath.Build (PurePath.root p)
    (List.removelast (PurePath.parts p)
       ++ [Py.take 245 (PurePath.stem p) +:+ PurePath.suffix p]).

(** A file name with a stem of 300 characters. *)
Definition long_name : string := Py.mul "a" 300 +:+ ".txt".

(** ** The local file system, the failure logs and the observable calls

    The file system maps the path strings handed to the operating
    system to what is stored there.  Two different strings are two
    different files: links and [..] are not resolved.  The two failure
    logs are kept apart from it, as the lists of the records written. *)

Inductive node :=
| File (content : list Byte.byte)
| Dir.

(** The two requests [download_file] builds from [service.files()]. *)
Inductive request :=
| export_media (fileId mimeType : string)
| get_media (fileId : string).

(** The calls a job makes to its environment, in program order. *)
Inductive event :=
| EvExists (p : string)                 (* os.path.exists(p) *)
| EvRequest (r : request)               (* export_media / get_media *)
| EvOpen (p : string)                   (* io.FileIO(p, 'wb') *)
| EvNextChunk                           (* downloader.next_chunk() *)
| EvRename (src dst : string)           (* os.rename(src, dst) *)
| EvAppend (file line : string)         (* open(file, 'a') ... f.write(line) *)
| EvMakedirs (p : string)               (* os.makedirs(p, exist_ok=True) *)
| EvAcquire (lock : string)             (* lock.acquire() / with lock: *)
| EvRelease (lock : string).

Record world := World {
  fs : gmap string node;
  failed_downloads_txt : list string;
  failed_folders_txt : list string;
  trace : list event
}.

Definition emit (ev : event) (w : world) : world :=
  World (fs w) (failed_downloads_txt w) (failed_folders_txt w) (trace w ++ [ev]).

Definition set_fs (m : gmap string node) (w : world) : world :=
  World m (failed_downloads_txt w) (failed_folders_txt w) (trace w).

Definition newline : string := String (ascii_of_nat 10) EmptyString.

(** The record [f"{id},{name},{error}\n"]. *)
Definition failure_line (id name error : string) : string :=
  id +:+ "," +:+ name +:+ "," +:+ error +:+ newline.

(** [write_failed_folder]: the log takes every record handed to it. *)
Definition write_failed_folder (folder_id folder_name error : string) (w : world) : world :=
  let line := failure_line folder_id folder_name error in
  World (fs w) (failed_downloads_txt w) (failed_folders_txt w ++ [line])
        (trace w ++ [EvAppend "./failed_folders.txt" line]).

(** [write_failed_downloads] *)
Definition write_failed_downloads (file_id file_name error : string) (w : world) : world :=
  let line := failure_line file_id file_name error in
  World (fs w) (failed_downloads_txt w ++ [line]) (failed_folders_txt w)
        (trace w ++ [EvAppend "./failed_downloads.txt" line]).

(** ** The environment of a download job *)

(** What the successive [next_chunk] calls of one [MediaIoBaseDownload]
    do: each writes some bytes to the file handle and then reports
    [done = False] ([Chunk]), [done = True] ([LastChunk]) or raises
    ([ChunkError], after the bytes it could still write). *)
Inductive transfer :=
| LastChunk (data : list Byte.byte)
| Chunk (data : list Byte.byte) (rest : transfer)
| ChunkError (data : list Byte.byte) (e : exn).

Fixpoint transfer_data (t : transfer) : list Byte.byte :=
  match t with
  | LastChunk data => data
  | Chunk data rest => data ++ transfer_data rest
  | ChunkError data _ => data
  end.

Fixpoint transfer_error (t : transfer) : option exn :=
  match t with
  | LastChunk _ => None
  | Chunk _ rest => transfer_error rest
  | ChunkError _ e => Some e
  end.

(** The remote store, seen from a job: the transfer a request starts. *)
Definition service := request -> transfer.

(** Faults of the operating system that the file-system model does not
    decide by itself (permissions, a missing parent directory, a full
    disk): [Some e] makes the call raise [e]. *)
Record os_faults := OsFaults {
  open_fault : string -> option exn;
  rename_fault : string -> string -> option exn;
  makedirs_fault : string -> option exn
}.

Definition no_faults : os_faults :=
  OsFaults (fun _ => None) (fun _ _ => None) (fun _ => None).

(** [os.path.exists(p)] *)
Definition os_path_exists (p : string) (w : world) : bool :=
  bool_decide (is_Some (fs w !! p)).

(** [io.FileIO(p, 'wb')]: create the file or truncate it. *)
Definition FileIO_wb (osf : os_faults) (p : string) (w : world) : result unit * world :=
  let w := emit (EvOpen p) w in
  match open_fault osf p with
  | Some e => (Raise e, w)
  | None =>
      match fs w !! p with
      | Some Dir => (Raise (IsADirectoryError p), w)
      | _ => (Ok tt, set_fs (<[p := File []]> (fs w)) w)
      end
  end.

(** [fh.write(data)] on the handle opened at [p] *)
Definition fh_write (p : string) (data : list Byte.byte) (w : world) : world :=
  set_fs (alter (fun n => match n with
                          | File c => File (c ++ data)
                          | Dir => Dir
                          end) p (fs w)) w.

(** [while not done: status, done = downloader.next_chunk()] *)
Fixpoint download_chunks (t : transfer) (p : string) (w : world) : result unit * world :=
  match t with
  | LastChunk data => (Ok tt, fh_write p data (emit EvNextChunk w))
  | Chunk data rest => download_chunks rest p (fh_write p data (emit EvNextChunk w))
  | ChunkError data e => (Raise e, fh_write p data (emit EvNextChunk w))
  end.

(** [os.rename(src, dst)] for a file [src] *)
Definition os_rename (osf : os_faults) (src dst : string) (w : world) : result unit * world :=
  let w := emit (EvRename src dst) w in
  match rename_fault osf src dst with
  | Some e => (Raise e, w)
  | None =>
      match fs w !! src with
      | None => (Raise (FileNotFoundError src), w)
      | Some n =>
          match fs w !! dst with
          | Some Dir => (Raise (IsADirectoryError dst), w)
          | _ => (Ok tt, set_fs (<[dst := n]> (delete src (fs w))) w)
          end
      end
  end.

(** ** The download protocol ([download_file]) *)

Definition google_apps_prefix : string := "application/vnd.google-apps.".

(** The body of the [try] block. *)
Definition download_file_try (svc : service) (osf : os_faults)
    (file_id file_path mime_type : string) (w : world) : result unit * world :=
  match sanitize_path file_path with
  | Raise e => (Raise e, w)
  | Ok sanitized_path =>
      let temp_path := PurePath.Path (PurePath.str sanitized_path +:+ ".temp") in
      (* Check if file already exists *)
      let w := emit (EvExists (PurePath.str sanitized_path)) w in
      if os_path_exists (PurePath.str sanitized_path) w then (Ok tt, w)
      else
        let '(req, final) :=
          if Py.startswith mime_type google_apps_prefix
          then (export_media file_id "application/pdf",
                PurePath.with_suffix sanitized_path ".pdf")
          else (get_media file_id, Ok sanitized_path) in
        let w := emit (EvRequest req) w in
        match final with
        | Raise e => (Raise e, w)
        | Ok sanitized_path =>
            match FileIO_wb osf (PurePath.str temp_path) w with
            | (Raise e, w) => (Raise e, w)
            | (Ok _, w) =>
                match download_chunks (svc req) (PurePath.str temp_path) w with
                | (Raise e, w) => (Raise e, w)
                | (Ok _, w) =>
                    (* Rename the temp file to the final file name *)
                    os_rename osf (PurePath.str temp_path)
                              (PurePath.str sanitized_path) w
                end
            end
        end
  end.

(** [download_file]: the [try] block and its [except Exception] handler. *)
Definition download_file (svc : service) (osf : os_faults)
    (file_id file_path mime_type : string) (w : world) : result unit * world :=
  match download_file_try svc osf file_id file_path mime_type w with
  | (Ok _, w) => (Ok tt, w)
  | (Raise e, w) => (Ok tt, write_failed_downloads file_id file_path (str_exn e) w)
  end.

(** ** The bounded job executor ([JobExecutor])

    The futures of the pool are numbered in the order
    [ThreadPoolExecutor.submit] creates them.  A job completes on its
    own, in a worker thread, at a moment the submitting thread does not
    choose: that is the [step_complete] transition below; what the job
    computes plays no part here.  A blocking call is a function to
    [option], [None] as long as the call has not returned. *)

Module JobExecutor.

Record t := Build {
  max_workers : Z;        (* self.executor._max_workers *)
  futures : list nat;     (* self.futures *)
  created : nat;          (* number of futures the pool has created *)
  completed : gset nat    (* the futures whose job is done *)
}.

(** [JobExecutor(max_workers)]; [ThreadPoolExecutor] refuses a
    capacity that is not positive. *)
Definition init (max_workers : Z) : result t :=
  if max_workers <=? 0
  then Raise (ValueError "max_workers must be greater than 0")
  else Ok (Build max_workers [] 0 ∅).

(** [concurrent.futures.wait(fs, return_when=FIRST_COMPLETED)]: the
    futures of [fs] that are done, once there is one (at once when
    [fs] is empty). *)
Definition wait_first_completed (completed : gset nat) (fs : list nat)
    : option (list nat) :=
  let done := filter (fun f => f ∈ completed) fs in
  match fs, done with
  | [], _ => Some []
  | _ :: _, [] => None
  | _ :: _, _ :: _ => Some done
  end.

(** [concurrent.futures.wait(fs)]: returns when all of [fs] are done. *)
Definition wait_all_completed (completed : gset nat) (fs : list nat)
    : option (list nat) :=
  if forallb (fun f => bool_decide (f ∈ completed)) fs then Some fs else None.

(** [submit_job]: the new future and the state the call leaves. *)
Definition submit_job (s : t) : option (nat * t) :=
  let tracked :=
    if Z.of_nat (length (futures s)) >=? max_workers s then
      (* Wait for at least one future to complete *)
      match wait_first_completed (completed s) (futures s) with
      | Some done =>
          (* Clean up completed futures *)
          Some (filter (fun f => f ∉ done) (futures s))
      | None => None
      end
    else Some (futures s) in
  match tracked with
  | Some fs =>
      let future := created s in
      Some (future,
            Build (max_workers s) (fs ++ [future]) (S (created s)) (completed s))
  | None => None
  end.

(** [wait_completion] *)
Definition wait_completion (s : t) : option unit :=
  match wait_all_completed (completed s) (futures s) with
  | Some _ => Some tt
  | None => None
  end.

(** The job of future [f] finishes. *)
Definition complete (f : nat) (s : t) : t :=
  Build (max_workers s) (futures s) (created s) ({[f]} ∪ completed s).

(** One step of a run: a [submit_job] call returns, or a job that
    was submitted and is not done yet finishes. *)
Inductive step : t -> t -> Prop :=
| step_submit s future s' :
    submit_job s = Some (future, s') -> step s s'
| step_complete s f :
    (f < created s)%nat -> f ∉ completed s -> step s (complete f s).

(** The jobs in flight: submitted and not completed. *)
Definition in_flight (s : t) : list nat :=
  filter (fun f => f ∉ completed s) (seq 0 (created s)).

End JobExecutor.

(** ** The traversal driver ([list_all_files])

    The remote store, seen from the traversal: an entry of a listing
    carries the answer the service gives when that entry is listed in
    turn (looked at for folders only), and the listing of a folder is
    the sequence of its pages, up to the last one or up to the page
    whose request raises. *)

Inductive item :=
| Item (id name mimeType : string) (children : listing)
with listing :=
| ListError (e : exn)                               (* .execute() raises *)
| LastPage (files : list item)                      (* no nextPageToken *)
| NextPage (files : list item) (rest : listing).    (* a nextPageToken *)

(** The arguments of one [job_executor.submit_job(download_file, ...)]. *)
Record job := Job { file_id : string; file_path : string; mime_type : string }.

(** The state the traversal works on: the local disk and the logs, and
    the jobs handed to the executor so far. *)
Record crawl := Crawl { disk : world; submitted : list job }.

Definition folder_mime : string := "application/vnd.google-apps.folder".

(** [os.makedirs(p, exist_ok=True)] *)
Definition os_makedirs (osf : os_faults) (p : string) (c : crawl) : result unit * crawl :=
  let w := emit (EvMakedirs p) (disk c) in
  match makedirs_fault osf p with
  | Some e => (Raise e, Crawl w (submitted c))
  | None =>
      match fs w !! p with
      | Some (File _) => (Raise (FileExistsError p), Crawl w (submitted c))
      | _ => (Ok tt, Crawl (set_fs (<[p := Dir]> (fs w)) w) (submitted c))
      end
  end.

Definition record_failed_folder (folder_id folder_name error : string) (c : crawl) : crawl :=
  Crawl (write_failed_folder folder_id folder_name error (disk c)) (submitted c).

Definition submit_download (j : job) (c : crawl) : crawl :=
  Crawl (disk c) (submitted c ++ [j]).

Section ForEach.
Context (visit : item -> crawl -> result unit * crawl).

(** [for item in items: ...], left by the first exception *)
Fixpoint for_each (items : list item) (c : crawl) : result unit * crawl :=
  match items with
  | [] => (Ok tt, c)
  | it :: rest =>
      match visit it c with
      | (Ok _, c) => for_each rest c
      | (Raise e, c) => (Raise e, c)
      end
  end.
End ForEach.

(** The body of the [for] loop; [recur] is [list_all_files] itself. *)
Definition list_item (osf : os_faults)
    (recur : listing -> string -> crawl -> result unit * crawl)
    (local_path : string) (it : item) (c : crawl) : result unit * crawl :=
  match it with
  | Item id name mimeType children =>
      if String.eqb mimeType folder_mime then
        (* Create local directory *)
        let new_local_path := os_path_join local_path name in
        match os_makedirs osf new_local_path c with
        | (Raise e, c) => (Raise e, c)
        | (Ok _, c) =>
            match recur children new_local_path c with
            | (Ok _, c) => (Ok tt, c)
            | (Raise e, c) =>
                (Ok tt, record_failed_folder id local_path (str_exn e) c)
            end
        end
      else
        (* Download the file *)
        let file_path :=
          os_path_join local_path
            (if Py.startswith mimeType google_apps_prefix
             then name +:+ ".pdf" else name) in
        (Ok tt, submit_download (Job id file_path mimeType) c)
  end.

(** [list_all_files]: [pages] is what the service answers for
    [folder_id], page after page. *)
Fixpoint list_all_files (osf : os_faults) (pages : listing)
    (local_path : string) (c : crawl) {struct pages} : result unit * crawl :=
  match pages with
  | ListError e => (Raise e, c)
  | LastPage items =>
      for_each (list_item osf (list_all_files osf) local_path) items c
  | NextPage items rest =>
      match for_each (list_item osf (list_all_files osf) local_path) items c with
      | (Ok _, c) => list_all_files osf rest local_path c
      | (Raise e, c) => (Raise e, c)
      end
  end.

(** ** Reading a trace *)

(** The name of the lock [main.py] creates ([WRITE_LOCK = RLock()]). *)
Definition WRITE_LOCK : string := "WRITE_LOCK".

(** An event that takes or gives back a lock. *)
Definition is_lock_event (ev : event) : bool :=
  match ev with
  | EvAcquire _ | EvRelease _ => true
  | _ => false
  end.

(** Every append of the trace happens while [lock] is held; [held]
    tells whether it is held at the start. *)
Fixpoint appends_locked (lock : string) (held : bool) (tr : list event) : bool :=
  match tr with
  | [] => true
  | EvAcquire l :: rest =>
      appends_locked lock (if String.eqb l lock then true else held) rest
  | EvRelease l :: rest =>
      appends_locked lock (if String.eqb l lock then false else held) rest
  | EvAppend _ _ :: rest => held && appends_locked lock held rest
  | _ :: rest => appends_locked lock held rest
  end.

(** The number of [next_chunk] calls of a trace. *)
Definition fetch_calls (tr : list event) : nat :=
  List.length (List.filter (fun ev => match ev with EvNextChunk => true | _ => false end) tr).

(** What a piece of the download protocol leaves untouched: both
    logs, and the events already in the trace; none of the new events
    is about a lock. *)
Definition extends (w w' : world) : Prop :=
  failed_downloads_txt w' = failed_downloads_txt w
  /\ failed_folders_txt w' = failed_folders_txt w
  /\ exists evs, trace w' = trace w ++ evs
                 /\ forallb (fun ev => negb (is_lock_event ev)) evs = true.

(** The request and the final path [download_file] settles on for a
    sanitized path, by content kind. *)
Definition fetch_request (file_id mime_type : string) : request :=
  if Py.startswith mime_type google_apps_prefix
  then export_media file_id "application/pdf" else get_media file_id.

Definition final_path (mime_type : string) (p : PurePath.t) : result PurePath.t :=
  if Py.startswith mime_type google_apps_prefix
  then PurePath.with_suffix p ".pdf" else Ok p.

Definition temp_path (p : PurePath.t) : string :=
  PurePath.str (PurePath.Path (PurePath.str p +:+ ".temp")).

(** ** The jobs a traversal is due to submit

    [all_jobs pages local_path] lists, in depth-first order, one job for
    every document the listing shows, down to the page of each folder
    whose request raises. *)

Definition item_job (local_path id name mimeType : string) : job :=
  Job id
      (os_path_join local_path
         (if Py.startswith mimeType google_apps_prefix
          then name +:+ ".pdf" else name))
      mimeType.

Definition item_jobs (recur : listing -> string -> list job)
    (local_path : string) (it : item) : list job :=
  match it with
  | Item id name mimeType children =>
      if String.eqb mimeType folder_mime
      then recur children (os_path_join local_path name)
      else [item_job local_path id name mimeType]
  end.

Fixpoint all_jobs (pages : listing) (local_path : string) {struct pages} : list job :=
  match pages with
  | ListError _ => []
  | LastPage items => List.flat_map (item_jobs all_jobs local_path) items
  | NextPage items rest =>
      List.flat_map (item_jobs all_jobs local_path) items ++ all_jobs rest local_path
  end.

(** The exception the listing of the folder itself ends with, if any. *)
Fixpoint listing_error (pages : listing) : option exn :=
  match pages with
  | ListError e => Some e
  | LastPage _ => None
  | NextPage _ rest => listing_error rest
  end.

(** A disk that holds directories only, and an operating system that
    lets every directory be made. *)
Definition dirs_only (w : world) : Prop :=
  forall p n, fs w !! p = Some n -> n = Dir.

Definition makedirs_ok (osf : os_faults) : Prop :=
  forall p, makedirs_fault osf p = None.

(** ** A whole run, and small scenarios

    [main], once the credentials are there: the traversal from the
    listing of the root folder, and the jobs it handed to the pool.
    The jobs are run here one after the other in submission order once
    the traversal is over; the pool runs them while the traversal goes
    on, so this is the program's behaviour where no job touches a path
    the traversal still has to make, and where the paths in use have
    one spelling each (the disk is keyed by the path strings).  An
    exception of the traversal leaves [main], and the pool still runs
    what was handed to it before the interpreter exits. *)

Definition run_jobs (svc : service) (osf : os_faults) (js : list job) (w : world) : world :=
  List.fold_left
    (fun w j => (download_file svc osf (file_id j) (file_path j) (mime_type j) w).2)
    js w.

Definition initial_local_path : string := "./test".

Definition main (svc : service) (osf : os_faults) (root : listing) (w : world)
    : result unit * world :=
  (* Make this directory *)
  match os_makedirs osf initial_local_path (Crawl w []) with
  | (Raise e, c) => (Raise e, disk c)
  | (Ok _, c) =>
      match list_all_files osf root initial_local_path c with
      | (Raise e, c) => (Raise e, run_jobs svc osf (submitted c) (disk c))
      | (Ok _, c) => (Ok tt, run_jobs svc osf (submitted c) (disk c))
      end
  end.

Definition empty_world : world := World ∅ [] [] [].

(** A store that delivers every file in two chunks. *)
Definition two_chunks : service :=
  fun _ => Chunk [Byte.x78] (LastChunk [Byte.x79]).

(** A store whose transfers break after the first chunk. *)
Definition broken_service : service :=
  fun _ => Chunk [Byte.x78] (ChunkError [] (Exn "HttpError" "connection reset")).

(** The world a later run starts from: the disk and the logs of [w],
    and a trace of its own. *)
Definition restart (w : world) : world :=
  World (fs w) (failed_downloads_txt w) (failed_folders_txt w) [].

Definition google_doc : string := "application/vnd.google-apps.document".

(** A root folder holding a folder [docs] and, next to it, a document
    whose name is [docs/]. *)
Definition slash_named : listing :=
  LastPage [ Item "f1" "docs" folder_mime (LastPage []);
             Item "d1" "docs/" google_doc (LastPage []) ].

(** ** The executor's invariant and small runs *)

(** What holds of an executor all along a run: a positive capacity;
    the tracked futures are distinct futures of the pool, at most
    [max_workers] of them; a future that is not tracked is done. *)
Definition executor_inv (s : JobExecutor.t) : Prop :=
  0 < JobExecutor.max_workers s
  /\ NoDup (JobExecutor.futures s)
  /\ (forall f, f ∈ JobExecutor.futures s -> (f < JobExecutor.created s)%nat)
  /\ (forall f, (f < JobExecutor.created s)%nat ->
                f ∉ JobExecutor.completed s -> f ∈ JobExecutor.futures s)
  /\ Z.of_nat (length (JobExecutor.futures s)) <= JobExecutor.max_workers s.

(** The state a [submit_job] call that returns leaves. *)
Definition after_submit (s : JobExecutor.t) : JobExecutor.t :=
  match JobExecutor.submit_job s with
  | Some (_, s') => s'
  | None => s
  end.

(** All the jobs of [fs] finish, the last of the list first. *)
Definition complete_all (fs : list nat) (s : JobExecutor.t) : JobExecutor.t :=
  List.fold_right JobExecutor.complete s fs.

(** A run with two workers: two jobs are submitted, the first one
    finishes, a third job is submitted, the other two finish. *)
Definition pool2 : JobExecutor.t := JobExecutor.Build 2 [] 0 ∅.
Definition pool2_full : JobExecutor.t := after_submit (after_submit pool2).
Definition pool2_drained : JobExecutor.t :=
  after_submit (JobExecutor.complete 0 pool2_full).
Definition pool2_end : JobExecutor.t :=
  JobExecutor.complete 2 (JobExecutor.complete 1 pool2_drained).

(** Two workers, two tracked futures, both done. *)
Definition pool2_both_done : JobExecutor.t :=
  JobExecutor.complete 1 (JobExecutor.complete 0 pool2_full).

Definition empty_crawl : crawl := Crawl empty_world [].

(** A page with a folder [a] whose listing raises, and next to it a
    folder [b] that holds one file. *)
Definition quota_error : exn := Exn "HttpError" "quota exceeded".

Definition failing_sibling : list item :=
  [ Item "A" "a" folder_mime (ListError quota_error);
    Item "B" "b" folder_mime
      (LastPage [ Item "x" "data.csv" "text/csv" (LastPage []) ]) ].

(** ** Well-formed paths, whole listings, counted transfers *)

(** What [Path] builds: one of the three roots, and components. *)
Definition wf_path (p : PurePath.t) : Prop :=
  (PurePath.root p = "" \/ PurePath.root p = "/" \/ PurePath.root p = "//")
  /\ Forall component (PurePath.parts p).

(** The entries of all the pages of a listing, up to the page whose
    request raises. *)
Fixpoint listing_items (pages : listing) : list item :=
  match pages with
  | ListError _ => []
  | LastPage items => items
  | NextPage items rest => items ++ listing_items rest
  end.


(** What the traversal may do to the disk and the logs: make
    directories where no file is, append to the folder log, submit
    jobs. *)
Definition crawl_keeps (c c' : crawl) : Prop :=
  (forall p, fs (disk c') !! p = fs (disk c) !! p
             \/ (fs (disk c') !! p = Some Dir
                 /\ forall d, fs (disk c) !! p <> Some (File d)))
  /\ failed_downloads_txt (disk c') = failed_downloads_txt (disk c)
  /\ failed_folders_txt (disk c) `prefix_of` failed_folders_txt (disk c')
  /\ submitted c `prefix_of` submitted c'.

(** A crawl that finds a file where the folder [a] is to be made. *)
Definition file_in_the_way : crawl :=
  Crawl (World {["./test/a" := File [Byte.x61]]} [] [] []) [].

(** The entries of [failing_sibling] on two pages. *)
Definition two_pages : listing :=
  NextPage [ Item "A" "a" folder_mime (ListError quota_error) ]
    (LastPage [ Item "B" "b" folder_mime
                  (LastPage [ Item "x" "data.csv" "text/csv" (LastPage []) ]) ]).

(** ** The records a traversal is due to write

    [all_failures pages local_path] lists, in the order the traversal
    meets them, the folder entries whose listing raises, each as the
    entry's id, the local path of the folder it was listed in and the
    text of the exception: what lies below an entry comes before the
    entry itself. *)

Definition item_failures (recur : listing -> string -> list (string * string * string))
    (local_path : string) (it : item) : list (string * string * string) :=
  match it with
  | Item id name mimeType children =>
      if String.eqb mimeType folder_mime
      then recur children (os_path_join local_path name)
             ++ match listing_error children with
                | Some e => [(id, local_path, str_exn e)]
                | None => []
                end
      else []
  end.

Fixpoint all_failures (pages : listing) (local_path : string) {struct pages}
    : list (string * string * string) :=
  match pages with
  | ListError _ => []
  | LastPage items => List.flat_map (item_failures all_failures local_path) items
  | NextPage items rest =>
      List.flat_map (item_failures all_failures local_path) items
        ++ all_failures rest local_path
  end.

(** A folder [top] whose second page cannot be listed, and in it a
    folder [in] that cannot be listed at all. *)
Definition nested_failures : listing :=
  LastPage
    [ Item "T" "top" folder_mime
        (NextPage [ Item "I" "in" folder_mime (ListError quota_error) ]
                  (ListError quota_error)) ].

(* ================================================================= *)
(** * Properties *)

(** ** Strings *)

Section StringFacts.

Lemma app_cons (c : ascii) (s t : string) :
  String c s +:+ t = String c (s +:+ t).
Proof. reflexivity. Qed.

Lemma app_empty_l (t : string) : "" +:+ t = t.
Proof. reflexivity. Qed.

Lemma app_empty_r (s : string) : s +:+ "" = s.
Proof. induction s as [|c s IH]; [reflexivity|]. by rewrite app_cons, IH. Qed.

Lemma app_assoc_str (s t u : string) : (s +:+ t) +:+ u = s +:+ (t +:+ u).
Proof. induction s as [|c s IH]; [reflexivity|]. by rewrite !app_cons, IH. Qed.

Lemma length_app_str (s t : string) :
  String.length (s +:+ t) = (String.length s + String.length t)%nat.
Proof. induction s as [|c s IH]; [reflexivity|]. rewrite app_cons. simpl. by rewrite IH. Qed.

Lemma take_drop_str (n : nat) (s : string) : Py.take n s +:+ Py.drop n s = s.
Proof.
  revert s. induction n as [|n IH]; intros [|c s]; try reflexivity.
  simpl. by rewrite app_cons, IH.
Qed.

Lemma length_take (n : nat) (s : string) :
  String.length (Py.take n s) = Nat.min n (String.length s).
Proof.
  revert s. induction n as [|n IH]; intros [|c s]; try reflexivity.
  simpl. by rewrite IH.
Qed.

Lemma length_drop (n : nat) (s : string) :
  String.length (Py.drop n s) = (String.length s - n)%nat.
Proof.
  revert s. induction n as [|n IH]; intros [|c s]; try reflexivity.
  simpl. by rewrite IH.
Qed.

Lemma contains_app (c : ascii) (s t : string) :
  Py.contains c (s +:+ t) = Py.contains c s || Py.contains c t.
Proof.
  induction s as [|a s IH]; [reflexivity|].
  rewrite app_cons. simpl. rewrite IH. by rewrite orb_assoc.
Qed.

Lemma contains_take (c : ascii) (n : nat) (s : string) :
  Py.contains c s = false -> Py.contains c (Py.take n s) = false.
Proof.
  intros H. rewrite <- (take_drop_str n s), contains_app in H.
  by apply orb_false_elim in H as [? _].
Qed.

Lemma contains_drop (c : ascii) (n : nat) (s : string) :
  Py.contains c s = false -> Py.contains c (Py.drop n s) = false.
Proof.
  intros H. rewrite <- (take_drop_str n s), contains_app in H.
  by apply orb_false_elim in H as [_ ?].
Qed.

Lemma split_not_nil (c : ascii) (s : string) : Py.split c s <> [].
Proof.
  induction s as [|a s IH]; simpl; [done|].
  destruct (Ascii.eqb a c); [done|]. by destruct (Py.split c s).
Qed.

Lemma split_no_sep (c : ascii) (s : string) :
  Py.contains c s = false -> Py.split c s = [s].
Proof.
  induction s as [|a s IH]; simpl; [done|].
  intros [Ha Hs]%orb_false_elim. rewrite Ha, (IH Hs). done.
Qed.

Lemma split_pieces_no_sep (c : ascii) (s : string) :
  Forall (fun x => Py.contains c x = false) (Py.split c s).
Proof.
  induction s as [|a s IH]; simpl; [by repeat constructor|].
  destruct (Ascii.eqb a c) eqn:Ha; [by constructor|].
  destruct (Py.split c s) as [|x xs]; [by repeat constructor; simpl; rewrite Ha|].
  inversion IH; subst. constructor; [|done]. simpl. by rewrite Ha.
Qed.

Lemma last_char_no_sep (c : ascii) (s : string) (a : ascii) :
  Py.contains c s = false -> Py.last_char s = Some a -> Ascii.eqb a c = false.
Proof.
  induction s as [|b s IH]; [done|].
  simpl. intros [Hb Hs]%orb_false_elim.
  destruct s as [|b' s']; [by intros [= <-]|]. by apply IH.
Qed.

Lemma string_eqb_false_length (s t : string) :
  String.length s <> String.length t -> String.eqb s t = false.
Proof. intros H. apply String.eqb_neq. by intros ->. Qed.

End StringFacts.

(** ** Parsed paths *)

Section PathFacts.
Import PurePath.

(** The model against values CPython 3.11 returns: [str(p)], [p.name],
    [p.stem] and [p.suffix] for [p = PurePosixPath(s)]. *)
Example pathlib_values :
  List.map (fun s => (str (Path s), name (Path s), stem (Path s), suffix (Path s)))
    [ ""; "/"; "///"; "a/"; "./test/foo.txt"; "test/.pdf"; "a/b.tar.gz";
      "a/b."; "a/.b.c"; "//a//b/./c/"; "a/.." ]
  = [ (".", "", "", ""); ("/", "", "", ""); ("/", "", "", ""); ("a", "a", "a", "");
      ("test/foo.txt", "foo.txt", "foo", ".txt"); ("test/.pdf", ".pdf", ".pdf", "");
      ("a/b.tar.gz", "b.tar.gz", "b.tar", ".gz"); ("a/b.", "b.", "b.", "");
      ("a/.b.c", ".b.c", ".b", ".c"); ("//a/b/c", "c", "c", "");
      ("a/..", "..", "..", "") ].
Proof. by vm_compute. Qed.

(** [p.with_suffix('.pdf')], as text. *)
Example with_suffix_values :
  List.map (fun s => match with_suffix (Path s) ".pdf" with
                     | Ok p => str p
                     | Raise e => exn_class e
                     end)
    [ "."; "a"; "./test/foo.txt"; "test/.pdf"; "a/b.tar.gz"; "a/b."; "a/x.pdf" ]
  = [ "ValueError"; "a.pdf"; "test/foo.pdf"; "test/.pdf.pdf"; "a/b.tar.pdf";
      "a/b..pdf"; "a/x.pdf" ].
Proof. by vm_compute. Qed.

(** [os.path.join(a, b)] *)
Example os_path_join_values :
  [ os_path_join "./test" ".pdf"; os_path_join "./test" "/tmp/.pdf";
    os_path_join "" "a"; os_path_join "a/" "b"; os_path_join "a" "" ]
  = [ "./test/.pdf"; "/tmp/.pdf"; "a"; "a/b"; "a/" ].
Proof. by vm_compute. Qed.

Lemma Path_components (s : string) : Forall component (parts (Path s)).
Proof.
  unfold Path, parse_parts. destruct (splitroot s) as [r rel]. simpl.
  pose proof (split_pieces_no_sep sep rel) as H.
  induction H as [|x xs Hx _ IH]; simpl; [constructor|].
  destruct (keep_component x) eqn:Hk; [|done].
  constructor; [by split|done].
Qed.

Lemma name_component (p : t) :
  Forall component (parts p) -> name p <> "" -> component (name p).
Proof.
  unfold name. intros H Hn.
  destruct (parts p) as [|x xs] eqn:E; [done|].
  rewrite <- E in *. clear E. revert Hn.
  induction H as [|y ys Hy Hys IH]; [done|].
  destruct ys as [|z zs]; [done|]. exact IH.
Qed.

Lemma parts_removelast_name (p : t) :
  name p <> "" -> removelast (parts p) ++ [name p] = parts p.
Proof.
  unfold name. intros Hn.
  destruct (parts p) as [|x xs] eqn:E; [done|].
  symmetry. by apply app_removelast_last.
Qed.

Lemma parse_component (x : string) :
  component x -> parse_parts x = Build "" [x].
Proof.
  intros [Hs Hk]. unfold parse_parts, splitroot.
  destruct x as [|c x]; [done|].
  simpl in Hs. apply orb_false_elim in Hs as [Hc Hx].
  fold sep. rewrite Hc.
  rewrite split_no_sep by (simpl; by rewrite Hc, Hx).
  simpl. by rewrite Hk.
Qed.

Lemma with_name_component (p : t) (x : string) :
  name p <> "" -> component x ->
  with_name p x = Ok (Build (root p) (removelast (parts p) ++ [x])).
Proof.
  intros Hn Hx. unfold with_name.
  apply String.eqb_neq in Hn. rewrite Hn.
  rewrite (parse_component x Hx). simpl.
  destruct Hx as [Hs Hk].
  assert (String.eqb x "" = false) as ->.
  { unfold keep_component in Hk. apply andb_prop in Hk as [Hk _].
    by apply negb_true_iff in Hk. }
  destruct (Py.last_char x) as [a|] eqn:Ha; [|done].
  by rewrite (last_char_no_sep _ _ _ Hs Ha).
Qed.

Lemma stem_suffix_name (p : t) : stem p +:+ suffix p = name p.
Proof.
  unfold stem, suffix. destruct (has_suffix (name p)).
  - apply take_drop_str.
  - apply app_empty_r.
Qed.

Lemma stem_no_sep (p : t) :
  Py.contains sep (name p) = false -> Py.contains sep (stem p) = false.
Proof. unfold stem. destruct (has_suffix _); [apply contains_take|done]. Qed.

Lemma suffix_no_sep (p : t) :
  Py.contains sep (name p) = false -> Py.contains sep (suffix p) = false.
Proof. unfold suffix. destruct (has_suffix _); [apply contains_drop|done]. Qed.

Lemma with_name_same (p : t) :
  Forall component (parts p) -> name p <> "" -> with_name p (name p) = Ok p.
Proof.
  intros Hp Hn. rewrite with_name_component by auto using name_component.
  rewrite parts_removelast_name by done. by destruct p.
Qed.

Lemma long_component (x : string) :
  Py.contains sep x = false -> (2 <= String.length x)%nat -> component x.
Proof.
  intros Hs Hl. split; [done|]. unfold keep_component.
  rewrite !string_eqb_false_length; simpl; [done|lia..].
Qed.

Lemma with_name_empty (p : t) (x : string) :
  name p = "" -> with_name p x = Raise (empty_name_error p).
Proof. intros Hn. unfold with_name. by rewrite Hn. Qed.

Lemma stem_empty_name (p : t) : name p = "" -> stem p = "".
Proof. unfold stem. by intros ->. Qed.

End PathFacts.

(** ** The path sanitizer *)

Section Sanitizer.
Import PurePath.

(** [sanitize_path] leaves a path with a short stem as [Path] parsed it. *)
Lemma sanitize_path_short (path : string) :
  Py.len (stem (Path path)) <= 250 ->
  name (Path path) <> "" ->
  sanitize_path path = Ok (Path path).
Proof.
  intros Hlen Hn. unfold sanitize_path.
  apply Z.ltb_ge in Hlen. rewrite Hlen.
  unfold with_stem. rewrite stem_suffix_name.
  apply with_name_same; [apply Path_components|done].
Qed.

(** [sanitize_path] cuts a long stem down to 245 characters. *)
Lemma sanitize_path_long (path : string) :
  250 < Py.len (stem (Path path)) ->
  sanitize_path path = Ok (truncated (Path path)).
Proof.
  intros Hlen. unfold sanitize_path, truncated.
  pose proof Hlen as Hlt. apply Z.ltb_lt in Hlt. rewrite Hlt.
  unfold Py.len in Hlen.
  assert (name (Path path) <> "") as Hn.
  { intros E. rewrite (stem_empty_name _ E) in Hlen. simpl in Hlen. lia. }
  pose proof (name_component _ (Path_components path) Hn) as [Hs _].
  unfold with_stem. apply with_name_component; [done|].
  apply long_component.
  - rewrite contains_app, contains_take, suffix_no_sep; auto using stem_no_sep.
  - rewrite length_app_str, length_take. lia.
Qed.

(** [sanitize_path] returns on every path with a final component. *)
Lemma sanitize_path_total (path : string) :
  name (Path path) <> "" -> exists p, sanitize_path path = Ok p.
Proof.
  intros Hn. destruct (Z.lt_ge_cases 250 (Py.len (stem (Path path)))).
  - rewrite sanitize_path_long by done. eauto.
  - rewrite sanitize_path_short by (done || lia). eauto.
Qed.

Lemma sanitize_path_empty_name (path : string) :
  name (Path path) = "" ->
  sanitize_path path = Raise (empty_name_error (Path path)).
Proof. intros Hn. unfold sanitize_path, with_stem. by apply with_name_empty. Qed.

End Sanitizer.

Section SanitizerClaims.
Import PurePath.

(** C5 (as amended).  For a path whose final component is not empty:
    when the stem is longer than 250 characters the result is the path
    with the stem cut to its first 245 characters (exactly 245 of
    them) and the suffix put back; otherwise the result is the parsed
    path itself.  The result is a function of the argument alone. *)
Theorem sanitize_path_spec (path : string) :
  name (Path path) <> "" ->
  sanitize_path path
    = Ok (if 250 <? Py.len (stem (Path path))
          then truncated (Path path) else Path path)
  /\ (250 < Py.len (stem (Path path)) ->
      String.length (Py.take 245 (stem (Path path))) = 245%nat
      /\ name (truncated (Path path))
         = Py.take 245 (stem (Path path)) +:+ suffix (Path path)).
Proof.
  intros Hn. split.
  - destruct (250 <? Py.len (stem (Path path))) eqn:E.
    + apply Z.ltb_lt in E. by apply sanitize_path_long.
    + apply Z.ltb_ge in E. by apply sanitize_path_short.
  - intros Hlen. unfold Py.len in Hlen. split.
    + rewrite length_take. lia.
    + unfold truncated, name. simpl. by rewrite last_last.
Qed.

Lemma sanitize_path_spec_witness :
  sanitize_path ("./test/" +:+ long_name)
    = Ok (Build "" ["test"; Py.mul "a" 245 +:+ ".txt"])
  /\ sanitize_path "./test/notes.txt" = Ok (Path "./test/notes.txt").
Proof.
  split.
  - destruct (sanitize_path_spec ("./test/" +:+ long_name)) as [-> _];
      [by vm_compute|]. by vm_compute.
  - destruct (sanitize_path_spec "./test/notes.txt") as [-> _];
      [by vm_compute|]. by vm_compute.
Defined.

(** C5 as stated fails: the stem of ['.'] is not longer than 250
    characters, yet [sanitize_path] does not return the path. *)
Lemma sanitize_path_unchanged_counterexample :
  Py.len (stem (Path ".")) <= 250
  /\ sanitize_path "." <> Ok (Path ".")
  /\ sanitize_path "."
     = Raise (ValueError "PosixPath('.') has an empty name").
Proof. by vm_compute. Qed.

(** C10.  On a path whose final component is empty [sanitize_path]
    raises the [ValueError] of [with_stem], although the stem is not
    longer than 250 characters. *)
Theorem sanitize_path_partial (path : string) :
  name (Path path) = "" ->
  sanitize_path path = Raise (empty_name_error (Path path))
  /\ exn_class (empty_name_error (Path path)) = "ValueError"
  /\ Py.len (stem (Path path)) <= 250.
Proof.
  intros Hn. split; [by apply sanitize_path_empty_name|].
  split; [done|]. by rewrite stem_empty_name.
Qed.

Lemma sanitize_path_partial_witness :
  sanitize_path "." = Raise (ValueError "PosixPath('.') has an empty name")
  /\ sanitize_path "/" = Raise (ValueError "PosixPath('/') has an empty name")
  /\ sanitize_path "" = Raise (ValueError "PosixPath('.') has an empty name").
Proof.
  split; [|split].
  - exact (proj1 (sanitize_path_partial "." eq_refl)).
  - exact (proj1 (sanitize_path_partial "/" eq_refl)).
  - exact (proj1 (sanitize_path_partial "" eq_refl)).
Defined.

(** With a suffix in the name, the result has the cut stem as its stem
    and the old suffix as its suffix. *)
Example sanitize_path_long_stem :
  stem (truncated (Path ("./test/" +:+ long_name))) = Py.mul "a" 245
  /\ suffix (truncated (Path ("./test/" +:+ long_name))) = ".txt".
Proof. by vm_compute. Qed.

End SanitizerClaims.

(** ** The last piece of a split string and the name of a path *)

Section LastPiece.
Import PurePath.

Local Abbreviation last_piece c s := (List.last (Py.split c s) "").

Lemma split_two (c : ascii) (s : string) :
  Py.contains c s = true -> exists x y ys, Py.split c s = x :: y :: ys.
Proof.
  induction s as [|a s IH]; simpl; [done|].
  destruct (Ascii.eqb a c) eqn:Ha; simpl.
  - intros _. pose proof (split_not_nil c s).
    destruct (Py.split c s) as [|y ys]; [done|]. eauto.
  - intros Hs. destruct (IH Hs) as (x & y & ys & ->). eauto.
Qed.

Lemma last_piece_no_sep (c : ascii) (s : string) :
  Py.contains c s = false -> last_piece c s = s.
Proof. intros H. by rewrite split_no_sep. Qed.

Lemma last_piece_cons (c a : ascii) (r : string) :
  last_piece c (String a r)
  = if Py.contains c r then last_piece c r
    else if Ascii.eqb a c then r else String a r.
Proof.
  simpl. destruct (Py.contains c r) eqn:Hr.
  - destruct (split_two c r Hr) as (x & y & ys & ->).
    by destruct (Ascii.eqb a c).
  - rewrite (split_no_sep c r Hr). by destruct (Ascii.eqb a c).
Qed.

Lemma last_piece_app (c : ascii) (s t : string) :
  Py.contains c t = false ->
  last_piece c (s +:+ t) = last_piece c s +:+ t.
Proof.
  intros Ht. induction s as [|a s IH].
  - by rewrite app_empty_l, last_piece_no_sep.
  - rewrite app_cons, !last_piece_cons, contains_app, Ht, orb_false_r.
    destruct (Py.contains c s); [done|]. by destruct (Ascii.eqb a c).
Qed.

Lemma last_piece_after_sep (c : ascii) (s n : string) :
  Py.contains c n = false -> last_piece c (s +:+ String c n) = n.
Proof.
  intros Hn. induction s as [|a s IH].
  - rewrite app_empty_l, last_piece_cons, Hn. by rewrite Ascii.eqb_refl.
  - rewrite app_cons, last_piece_cons, contains_app. simpl.
    rewrite Ascii.eqb_refl. simpl. by rewrite orb_true_r.
Qed.

Lemma last_piece_lstrip (c : ascii) (s : string) :
  last_piece c (Py.lstrip c s) = last_piece c s.
Proof.
  induction s as [|a s IH]; [done|].
  cbn [Py.lstrip]. destruct (Ascii.eqb a c) eqn:Ha; [|done].
  rewrite last_piece_cons, Ha, IH.
  destruct (Py.contains c s) eqn:Hs; [done|]. by apply last_piece_no_sep.
Qed.

Lemma last_filter_keep (l : list string) :
  keep_component (List.last l "") = true ->
  List.last (List.filter keep_component l) "" = List.last l "".
Proof.
  induction l as [|x l IH]; [done|].
  destruct l as [|y l'].
  - simpl. by intros ->.
  - change (List.last (x :: y :: l') "") with (List.last (y :: l') "").
    intros H. specialize (IH H). rewrite <- IH.
    change (List.filter keep_component (x :: y :: l'))
      with (if keep_component x
            then x :: List.filter keep_component (y :: l')
            else List.filter keep_component (y :: l')).
    destruct (keep_component x); [|done].
    destruct (List.filter keep_component (y :: l')) as [|z zs] eqn:E; [|done].
    by rewrite <- IH in H.
Qed.

Lemma splitroot_rel (s : string) :
  last_piece sep (splitroot s).2 = last_piece sep s.
Proof.
  unfold splitroot. destruct s as [|a s]; [done|].
  destruct (Ascii.eqb a sep) eqn:Ha; [|done].
  destruct (_ =? 2); exact (last_piece_lstrip sep (String a s)).
Qed.

Lemma splitroot_root (s : string) :
  (splitroot s).1 = "" \/ (splitroot s).1 = "/" \/ (splitroot s).1 = "//".
Proof.
  unfold splitroot. destruct s as [|a s]; [by left|].
  destruct (Ascii.eqb a sep); [|by left].
  destruct (_ =? 2); simpl; auto.
Qed.

Lemma Path_root (s : string) :
  root (Path s) = "" \/ root (Path s) = "/" \/ root (Path s) = "//".
Proof.
  pose proof (splitroot_root s) as H. unfold Path, parse_parts.
  by destruct (splitroot s).
Qed.

(** The name of [Path s] is what follows the last separator of [s],
    when that is a component. *)
Lemma Path_name (s : string) :
  keep_component (last_piece sep s) = true ->
  name (Path s) = last_piece sep s.
Proof.
  intros H. pose proof (splitroot_rel s) as Hr.
  unfold name, Path, parse_parts. destruct (splitroot s) as [r rel].
  simpl in *. rewrite <- Hr in *. by apply last_filter_keep.
Qed.

Lemma join_snoc (d : string) (pre : list string) (n : string) :
  pre <> [] -> Py.join d (pre ++ [n]) = Py.join d pre +:+ d +:+ n.
Proof.
  induction pre as [|x pre IH]; [done|]. intros _.
  destruct pre as [|y pre]; [done|].
  change (Py.join d ((x :: y :: pre) ++ [n]))
    with (x +:+ d +:+ Py.join d ((y :: pre) ++ [n])).
  rewrite IH by done.
  change (Py.join d (x :: y :: pre)) with (x +:+ d +:+ Py.join d (y :: pre)).
  by rewrite !app_assoc_str.
Qed.

(** The text of a path is some prefix followed by its name. *)
Lemma str_ends_with_name (p : t) :
  name p <> "" ->
  (root p = "" \/ root p = "/" \/ root p = "//") ->
  str p = name p \/ exists s, str p = s +:+ String sep (name p).
Proof.
  intros Hn Hroot.
  pose proof (parts_removelast_name p Hn) as Hp.
  assert (root p +:+ Py.join "/" (parts p) = name p
          \/ exists s, root p +:+ Py.join "/" (parts p)
                       = s +:+ String sep (name p)) as H.
  { rewrite <- Hp. destruct (removelast (parts p)) as [|x pre] eqn:E.
    - simpl. destruct Hroot as [->| [->| ->]]; [by left|right..].
      + by exists "".
      + by exists "/".
    - right. rewrite join_snoc by done.
      exists (root p +:+ Py.join "/" (x :: pre)).
      by rewrite !app_assoc_str. }
  unfold str. cbv zeta.
  destruct (String.eqb_spec (root p +:+ Py.join "/" (parts p)) "") as [E|_];
    [|done].
  rewrite E in H. destruct H as [H|[s H]]; [done|].
  by destruct s.
Qed.

Lemma last_piece_str (p : t) :
  Forall component (parts p) -> name p <> "" ->
  (root p = "" \/ root p = "/" \/ root p = "//") ->
  last_piece sep (str p) = name p.
Proof.
  intros Hc Hn Hroot.
  destruct (name_component p Hc Hn) as [Hs _].
  destruct (str_ends_with_name p Hn Hroot) as [->|[s ->]].
  - by apply last_piece_no_sep.
  - by apply last_piece_after_sep.
Qed.

Lemma keep_component_long (x : string) :
  (2 <= String.length x)%nat -> keep_component x = true.
Proof.
  intros Hl. unfold keep_component.
  rewrite !string_eqb_false_length; simpl; [done|lia..].
Qed.

Lemma temp_name (s : string) :
  name (Path (s +:+ ".temp")) = last_piece sep s +:+ ".temp".
Proof.
  assert (last_piece sep (s +:+ ".temp") = last_piece sep s +:+ ".temp") as Hl
    by by apply last_piece_app.
  rewrite Path_name; [done|]. rewrite Hl. apply keep_component_long.
  rewrite length_app_str. simpl. lia.
Qed.

Lemma temp_name_not_empty (s : string) : name (Path (s +:+ ".temp")) <> "".
Proof.
  rewrite temp_name. intros E. apply (f_equal String.length) in E.
  rewrite length_app_str in E. simpl in E. lia.
Qed.

(** The temp path of a job is never the path the job was given. *)
Lemma temp_path_fresh (s : string) : str (Path (s +:+ ".temp")) <> s.
Proof.
  intros E.
  assert (last_piece sep (str (Path (s +:+ ".temp")))
          = last_piece sep s +:+ ".temp") as Hs.
  { rewrite last_piece_str;
      [apply temp_name|apply Path_components|apply temp_name_not_empty|apply Path_root]. }
  rewrite E in Hs. apply (f_equal String.length) in Hs.
  rewrite length_app_str in Hs. simpl in Hs. lia.
Qed.

(** It ends in ['.temp']. *)
Lemma temp_path_ends (s : string) :
  exists y, str (Path (s +:+ ".temp")) = y +:+ ".temp".
Proof.
  destruct (str_ends_with_name (Path (s +:+ ".temp")))
    as [->|[x ->]]; [apply temp_name_not_empty|apply Path_root|..];
    rewrite temp_name.
  - eauto.
  - exists (x +:+ String sep (last_piece sep s)).
    by rewrite app_assoc_str, app_cons.
Qed.

Lemma last_char_app (s t : string) :
  t <> "" -> Py.last_char (s +:+ t) = Py.last_char t.
Proof.
  intros Ht. induction s as [|a s IH]; [done|].
  rewrite app_cons. cbn [Py.last_char]. rewrite IH.
  destruct (s +:+ t) eqn:E; [|done].
  destruct s; [|done]. by rewrite app_empty_l in E.
Qed.

End LastPiece.

(** ** The download protocol *)

Section Download.
Import PurePath.
Context (svc : service) (osf : os_faults).

Lemma extends_refl (w : world) : extends w w.
Proof. repeat split. exists []. by rewrite app_nil_r. Qed.

Lemma extends_trans (w1 w2 w3 : world) :
  extends w1 w2 -> extends w2 w3 -> extends w1 w3.
Proof.
  intros (H1 & H2 & evs & H3 & H4) (H1' & H2' & evs' & H3' & H4').
  repeat split; [congruence..|].
  exists (evs ++ evs'). rewrite H3', H3, <- app_assoc. split; [done|].
  by rewrite forallb_app, H4, H4'.
Qed.

Lemma extends_emit (ev : event) (w : world) :
  is_lock_event ev = false -> extends w (emit ev w).
Proof. intros H. repeat split. exists [ev]. simpl. by rewrite H. Qed.

Lemma extends_set_fs (m : gmap string node) (w : world) : extends w (set_fs m w).
Proof. repeat split. exists []. by rewrite app_nil_r. Qed.

Lemma alter_file (m : gmap string node) (p : string) (c data : list Byte.byte) :
  m !! p = Some (File c) ->
  alter (fun n => match n with File c => File (c ++ data) | Dir => Dir end) p m
  = <[p := File (c ++ data)]> m.
Proof.
  intros H. apply map_eq. intros q. destruct (decide (p = q)) as [<-|Hne].
  - by rewrite lookup_alter_eq, lookup_insert_eq, H.
  - by rewrite lookup_alter_ne, lookup_insert_ne.
Qed.

Lemma download_chunks_spec (t : transfer) (p : string) (w : world)
    (c : list Byte.byte) :
  fs w !! p = Some (File c) ->
  (download_chunks t p w).1
    = match transfer_error t with None => Ok tt | Some e => Raise e end
  /\ fs (download_chunks t p w).2 = <[p := File (c ++ transfer_data t)]> (fs w)
  /\ extends w (download_chunks t p w).2.
Proof.
  revert w c. induction t as [data|data rest IH|data e]; intros w c Hp; simpl.
  - split; [done|]. split; [by apply alter_file|].
    eapply extends_trans; [by apply (extends_emit EvNextChunk)|].
    apply extends_set_fs.
  - destruct (IH (fh_write p data (emit EvNextChunk w)) (c ++ data))
      as (H1 & H2 & H3).
    { simpl. rewrite (alter_file _ _ c) by done. apply lookup_insert_eq. }
    split; [done|]. split.
    + rewrite H2. simpl. rewrite (alter_file _ _ c) by done.
      by rewrite insert_insert_eq, app_assoc.
    + eapply extends_trans; [|exact H3].
      eapply extends_trans; [by apply (extends_emit EvNextChunk)|].
      apply extends_set_fs.
  - split; [done|]. split; [by apply alter_file|].
    eapply extends_trans; [by apply (extends_emit EvNextChunk)|].
    apply extends_set_fs.
Qed.

Lemma FileIO_wb_spec (p : string) (w : world) :
  extends w (FileIO_wb osf p w).2
  /\ ((exists e, (FileIO_wb osf p w).1 = Raise e /\ fs (FileIO_wb osf p w).2 = fs w)
      \/ ((FileIO_wb osf p w).1 = Ok tt
          /\ fs (FileIO_wb osf p w).2 = <[p := File []]> (fs w))).
Proof.
  unfold FileIO_wb.
  assert (extends w (emit (EvOpen p) w)) as Hopen
    by by apply (extends_emit (EvOpen p)).
  destruct (open_fault osf p) as [e|]; [split; [done|left; eauto]|].
  change (fs (emit (EvOpen p) w)) with (fs w).
  destruct (fs w !! p) as [[c|]|].
  - split; [|by right]. eapply extends_trans; [exact Hopen|apply extends_set_fs].
  - split; [done|left; eauto].
  - split; [|by right]. eapply extends_trans; [exact Hopen|apply extends_set_fs].
Qed.

Lemma os_rename_spec (src dst : string) (w : world) (n : node) :
  fs w !! src = Some n ->
  extends w (os_rename osf src dst w).2
  /\ ((exists e, (os_rename osf src dst w).1 = Raise e
                 /\ fs (os_rename osf src dst w).2 = fs w)
      \/ ((os_rename osf src dst w).1 = Ok tt
          /\ fs (os_rename osf src dst w).2 = <[dst := n]> (delete src (fs w))
          /\ List.last (trace (os_rename osf src dst w).2) EvNextChunk
             = EvRename src dst)).
Proof.
  intros Hsrc. unfold os_rename.
  assert (extends w (emit (EvRename src dst) w)) as Hev
    by by apply (extends_emit (EvRename src dst)).
  destruct (rename_fault osf src dst) as [e|]; [split; [done|left; eauto]|].
  change (fs (emit (EvRename src dst) w)) with (fs w). rewrite Hsrc.
  destruct (fs w !! dst) as [[c|]|].
  - split; [eapply extends_trans; [exact Hev|apply extends_set_fs]|].
    right. repeat split. simpl. by rewrite last_last.
  - split; [done|left; eauto].
  - split; [eapply extends_trans; [exact Hev|apply extends_set_fs]|].
    right. repeat split. simpl. by rewrite last_last.
Qed.

(** Opening the temp file, the chunk loop and the rename. *)
Lemma fetch_spec (req : request) (temp dst : string) (w : world) :
  let r := match FileIO_wb osf temp w with
           | (Raise e, w) => (Raise e, w)
           | (Ok _, w) =>
               match download_chunks (svc req) temp w with
               | (Raise e, w) => (Raise e, w)
               | (Ok _, w) => os_rename osf temp dst w
               end
           end in
  extends w r.2
  /\ ((exists e, r.1 = Raise e
                 /\ forall q, q <> temp -> fs r.2 !! q = fs w !! q)
      \/ (r.1 = Ok tt
          /\ transfer_error (svc req) = None
          /\ fs r.2 = <[dst := File (transfer_data (svc req))]> (delete temp (fs w))
          /\ List.last (trace r.2) EvNextChunk = EvRename temp dst)).
Proof.
  destruct (FileIO_wb_spec temp w) as (Hext1 & Hopen).
  destruct (FileIO_wb osf temp w) as [[[]|e] w1]; simpl in Hext1, Hopen; cbv zeta;
    [|split; [done|]; left; exists e; split; [done|]; simpl;
      destruct Hopen as [(e' & _ & ->)|[[=] _]]; done].
  destruct Hopen as [(e' & [=] & _)|[_ Hfs1]].
  assert (fs w1 !! temp = Some (File [])) as Hw1
    by (rewrite Hfs1; apply lookup_insert_eq).
  destruct (download_chunks_spec (svc req) temp w1 [] Hw1) as (Hr & Hfs2 & Hext2).
  destruct (download_chunks (svc req) temp w1) as [r2 w2].
  simpl in Hr, Hfs2, Hext2.
  assert (extends w w2) as Hext by (by eapply extends_trans).
  assert (forall q, q <> temp -> fs w2 !! q = fs w !! q) as Hframe.
  { intros q Hq. by rewrite Hfs2, lookup_insert_ne, Hfs1, lookup_insert_ne. }
  destruct (transfer_error (svc req)) as [e|] eqn:Hte; subst r2;
    [split; [done|left; eauto]|].
  assert (fs w2 !! temp = Some (File (transfer_data (svc req)))) as Hw2
    by (rewrite Hfs2; apply lookup_insert_eq).
  destruct (os_rename_spec temp dst w2 _ Hw2) as (Hext3 & Hren).
  split; [by eapply extends_trans|].
  destruct Hren as [(e & He & Hfs3)|(Hok & Hfs3 & Hlast)].
  - left. exists e. split; [done|]. intros q Hq. rewrite Hfs3. by apply Hframe.
  - right. split; [done|]. split; [done|]. split; [|done].
    rewrite Hfs3, Hfs2, Hfs1. by rewrite !delete_insert_eq.
Qed.

(** What the [try] block does, case by case. *)
Lemma download_file_try_spec (file_id file_path mime_type : string) (w : world) :
  let r := download_file_try svc osf file_id file_path mime_type w in
  extends w r.2
  /\ match sanitize_path file_path with
     | Raise e => r = (Raise e, w)
     | Ok p =>
         if os_path_exists (str p) w
         then r = (Ok tt, emit (EvExists (str p)) w)
         else
           (exists e, r.1 = Raise e
                      /\ forall q, q <> temp_path p -> fs r.2 !! q = fs w !! q)
           \/ (exists dst,
                  r.1 = Ok tt
                  /\ final_path mime_type p = Ok dst
                  /\ transfer_error (svc (fetch_request file_id mime_type)) = None
                  /\ fs r.2
                     = <[str dst := File (transfer_data (svc (fetch_request file_id mime_type)))]>
                         (delete (temp_path p) (fs w))
                  /\ List.last (trace r.2) EvNextChunk
                     = EvRename (temp_path p) (str dst))
     end.
Proof.
  unfold download_file_try.
  destruct (sanitize_path file_path) as [p|e]; [|split; [apply extends_refl|done]].
  change (os_path_exists (str p) (emit (EvExists (str p)) w))
    with (os_path_exists (str p) w).
  assert (extends w (emit (EvExists (str p)) w)) as Hex
    by by apply (extends_emit (EvExists (str p))).
  destruct (os_path_exists (str p) w); [by split|].
  unfold final_path, fetch_request.
  set (w1 := emit (EvExists (str p)) w) in *.
  assert (forall req dst,
    let r := match FileIO_wb osf (temp_path p) (emit (EvRequest req) w1) with
             | (Raise e, w) => (Raise e, w)
             | (Ok _, w) =>
                 match download_chunks (svc req) (temp_path p) w with
                 | (Raise e, w) => (Raise e, w)
                 | (Ok _, w) => os_rename osf (temp_path p) (str dst) w
                 end
             end in
    extends w r.2
    /\ ((exists e, r.1 = Raise e
                   /\ forall q, q <> temp_path p -> fs r.2 !! q = fs w !! q)
        \/ (r.1 = Ok tt
            /\ transfer_error (svc req) = None
            /\ fs r.2 = <[str dst := File (transfer_data (svc req))]>
                          (delete (temp_path p) (fs w))
            /\ List.last (trace r.2) EvNextChunk
               = EvRename (temp_path p) (str dst)))) as Htail.
  { intros req dst.
    destruct (fetch_spec req (temp_path p) (str dst) (emit (EvRequest req) w1))
      as [Hext H].
    split; [|exact H].
    eapply extends_trans; [exact Hex|].
    eapply extends_trans; [|exact Hext]. by apply (extends_emit (EvRequest req)). }
  destruct (Py.startswith mime_type google_apps_prefix); cbv iota beta zeta.
  - destruct (with_suffix p ".pdf") as [dst|e].
    + destruct (Htail (export_media file_id "application/pdf") dst) as [Hext H].
      split; [exact Hext|]. destruct H as [H|(?&?&?&?)]; [by left|].
      right. by exists dst.
    + split; [|left; eauto].
      eapply extends_trans; [exact Hex|].
      by apply (extends_emit (EvRequest (export_media file_id "application/pdf"))).
  - destruct (Htail (get_media file_id) p) as [Hext H].
    split; [exact Hext|]. destruct H as [H|(?&?&?&?)]; [by left|].
    right. by exists p.
Qed.

(** A job whose sanitized destination exists makes the existence
    check and nothing else. *)
Lemma download_file_skip (file_id file_path mime_type : string) (w : world)
    (p : PurePath.t) :
  sanitize_path file_path = Ok p ->
  is_Some (fs w !! str p) ->
  download_file svc osf file_id file_path mime_type w
  = (Ok tt, emit (EvExists (str p)) w).
Proof.
  intros Hp Hex. unfold download_file.
  destruct (download_file_try_spec file_id file_path mime_type w) as [_ H].
  rewrite Hp in H. unfold os_path_exists in H.
  rewrite bool_decide_eq_true_2 in H by done. by rewrite H.
Qed.

Lemma drop_app_length (s t : string) : Py.drop (String.length s) (s +:+ t) = t.
Proof. induction s as [|a s IH]; [done|]. by rewrite app_cons. Qed.


Lemma join_last (d : string) (pre : list string) (n : string) :
  exists s, Py.join d (pre ++ [n]) = s +:+ n.
Proof.
  destruct pre as [|x pre]; [by exists ""|].
  rewrite join_snoc by done. exists (Py.join d (x :: pre) +:+ d).
  by rewrite app_assoc_str.
Qed.

(** The path [with_suffix] returns for ['.pdf'] ends in ['.pdf']. *)
Lemma with_suffix_pdf_str (p dst : PurePath.t) :
  with_suffix p ".pdf" = Ok dst -> exists x, str dst = x +:+ ".pdf".
Proof.
  unfold with_suffix. simpl.
  destruct (String.eqb (name p) ""); [done|].
  intros [= <-].
  set (n := if String.eqb (suffix p) "" then _ else _).
  assert (exists x, n = x +:+ ".pdf") as [x ->]
    by (subst n; destruct (String.eqb (suffix p) ""); eauto).
  unfold str. simpl root. simpl parts.
  destruct (join_last "/" (removelast (parts p)) (x +:+ ".pdf")) as [s ->].
  rewrite <- !app_assoc_str.
  destruct (String.eqb_spec (((root p +:+ s) +:+ x) +:+ ".pdf") "") as [E|_];
    [|eauto].
  apply (f_equal String.length) in E. rewrite length_app_str in E.
  simpl in E. lia.
Qed.


(** The final path of a job is not its temp path. *)
Lemma final_not_temp (mime_type : string) (p dst : PurePath.t) :
  final_path mime_type p = Ok dst -> str dst <> temp_path p.
Proof.
  unfold final_path, temp_path.
  destruct (Py.startswith mime_type google_apps_prefix).
  - intros [x Hx]%with_suffix_pdf_str E.
    destruct (temp_path_ends (str p)) as [y Hy].
    rewrite Hx, Hy in E. apply (f_equal Py.last_char) in E.
    by rewrite !last_char_app in E.
  - intros [= <-] E. by apply (temp_path_fresh (str p)).
Qed.

End Download.

Section DownloadClaims.
Import PurePath.

(** C1.  Whatever a job changes on disk outside its temp path is the
    final path, which then holds the whole content of a transfer that
    ended well, put there by the rename of the temp file.  When a
    stage of the job raises, [download_file] still returns normally,
    one record [file_id,file_path,error] is appended to the download
    failure log, no file exists at the sanitized destination (nor at
    the final path, when none was there before), and the disk differs
    from the one before at the temp path at most. *)
Theorem download_file_atomic (svc : service) (osf : os_faults)
    (file_id file_path mime_type : string) (w : world) :
  let r := download_file svc osf file_id file_path mime_type w in
  (forall p q, sanitize_path file_path = Ok p -> q <> temp_path p ->
     fs r.2 !! q <> fs w !! q ->
     exists dst, final_path mime_type p = Ok dst /\ q = str dst
       /\ transfer_error (svc (fetch_request file_id mime_type)) = None
       /\ fs r.2 !! q
          = Some (File (transfer_data (svc (fetch_request file_id mime_type))))
       /\ List.last (trace r.2) EvNextChunk = EvRename (temp_path p) q)
  /\ (forall e w1,
        download_file_try svc osf file_id file_path mime_type w = (Raise e, w1) ->
        r.1 = Ok tt
        /\ failed_downloads_txt r.2
           = failed_downloads_txt w
               ++ [file_id +:+ "," +:+ file_path +:+ "," +:+ str_exn e
                     +:+ String "010" ""]
        /\ (forall p, sanitize_path file_path = Ok p ->
              fs r.2 !! str p = None
              /\ forall q, q <> temp_path p -> fs r.2 !! q = fs w !! q)
        /\ (forall p dst, sanitize_path file_path = Ok p ->
              final_path mime_type p = Ok dst ->
              fs w !! str dst = None -> fs r.2 !! str dst = None)
        /\ (forall e', sanitize_path file_path = Raise e' -> fs r.2 = fs w)).
Proof.
  cbv zeta. unfold download_file.
  destruct (download_file_try_spec svc osf file_id file_path mime_type w)
    as [(Hlog & _ & _) Hspec].
  destruct (download_file_try svc osf file_id file_path mime_type w)
    as [[[]|e0] w0] eqn:Htry; simpl in Hlog, Hspec |- *.
  - (* the [try] block returned *)
    split; [|by intros e w1 [=]].
    intros p q Hp Hq Hdiff. rewrite Hp in Hspec.
    destruct (os_path_exists (str p) w).
    { injection Hspec as ->. by destruct Hdiff. }
    destruct Hspec as [(e & [=] & _)|(dst & _ & Hdst & Hte & Hfs & Hlast)].
    exists dst. rewrite Hfs in Hdiff |- *.
    destruct (decide (str dst = q)) as [<-|Hne].
    + by rewrite lookup_insert_eq.
    + by rewrite lookup_insert_ne, lookup_delete_ne in Hdiff.
  - (* the [try] block raised [e0] *)
    split.
    + intros p q Hp Hq Hdiff. rewrite Hp in Hspec.
      destruct (os_path_exists (str p) w); [done|].
      destruct Hspec as [(e & _ & Hframe)|(dst & [=] & _)].
      destruct Hdiff. by apply Hframe.
    + intros e w1 [= -> ->]. split; [done|]. split; [by rewrite Hlog|].
      split; [|split].
      * intros p Hp. rewrite Hp in Hspec.
        destruct (os_path_exists (str p) w) eqn:Hex; [done|].
        destruct Hspec as [(e' & _ & Hframe)|(dst & [=] & _)].
        split; [|done]. rewrite Hframe by (symmetry; apply temp_path_fresh).
        unfold os_path_exists in Hex. apply bool_decide_eq_false in Hex.
        by apply eq_None_not_Some.
      * intros p dst Hp Hdst Hnone. rewrite Hp in Hspec.
        destruct (os_path_exists (str p) w) eqn:Hex; [done|].
        destruct Hspec as [(e' & _ & Hframe)|(dst' & [=] & _)].
        rewrite Hframe; [done|]. by eapply final_not_temp.
      * intros e' He'. rewrite He' in Hspec. by injection Hspec as _ ->.
Qed.

Lemma download_file_atomic_witness :
  let r := download_file broken_service no_faults
             "id1" "./test/data.csv" "text/csv" empty_world in
  r.1 = Ok tt
  /\ failed_downloads_txt r.2
     = ["id1,./test/data.csv,connection reset" +:+ String "010" ""]
  /\ fs r.2 !! "test/data.csv" = None
  /\ fs r.2 !! "test/data.csv.temp" = Some (File [Byte.x78]).
Proof.
  cbv zeta.
  destruct (download_file_atomic broken_service no_faults
              "id1" "./test/data.csv" "text/csv" empty_world) as [_ H].
  destruct (H (Exn "HttpError" "connection reset")
              (download_file_try broken_service no_faults
                 "id1" "./test/data.csv" "text/csv" empty_world).2)
    as (H1 & H2 & H3 & _ & _); [by vm_compute|].
  split; [exact H1|]. split; [exact H2|]. split.
  - exact (proj1 (H3 (Path "./test/data.csv") ltac:(by vm_compute))).
  - by vm_compute.
Defined.

(** C9, what the code does.  The job whose [try] block raises appends
    its record to [./failed_downloads.txt] without taking
    [WRITE_LOCK]: no event of the job is about a lock. *)
Theorem failure_append_without_lock (svc : service) (osf : os_faults)
    (file_id file_path mime_type : string) (w : world) (e : exn) (w1 : world) :
  download_file_try svc osf file_id file_path mime_type w = (Raise e, w1) ->
  exists evs,
    trace (download_file svc osf file_id file_path mime_type w).2
      = trace w ++ evs
           ++ [EvAppend "./failed_downloads.txt"
                 (failure_line file_id file_path (str_exn e))]
    /\ forallb (fun ev => negb (is_lock_event ev)) evs = true
    /\ appends_locked WRITE_LOCK false
         (evs ++ [EvAppend "./failed_downloads.txt"
                    (failure_line file_id file_path (str_exn e))]) = false.
Proof.
  intros Htry. unfold download_file.
  destruct (download_file_try_spec svc osf file_id file_path mime_type w)
    as [(_ & _ & evs & Htr & Hfree) _].
  rewrite Htry in Htr |- *. simpl in Htr |- *.
  exists evs. rewrite Htr, <- app_assoc. split; [done|]. split; [done|].
  clear Htr. induction evs as [|ev evs IH]; [done|].
  simpl in Hfree. apply andb_prop in Hfree as [Hev Hfree].
  destruct ev; simpl in Hev |- *; try done; by apply IH.
Qed.

Lemma failure_append_without_lock_witness :
  exists evs,
    trace (download_file broken_service no_faults
             "id1" "./test/data.csv" "text/csv" empty_world).2
      = evs ++ [EvAppend "./failed_downloads.txt"
                  (failure_line "id1" "./test/data.csv" "connection reset")]
    /\ forallb (fun ev => negb (is_lock_event ev)) evs = true.
Proof.
  destruct (failure_append_without_lock broken_service no_faults
              "id1" "./test/data.csv" "text/csv" empty_world
              (Exn "HttpError" "connection reset")
              (download_file_try broken_service no_faults
                 "id1" "./test/data.csv" "text/csv" empty_world).2)
    as (evs & H1 & H2 & _); [by vm_compute|].
  exists evs. by split.
Defined.

(** A job that ended well is skipped by a later run when its final
    path is the sanitized path: every ordinary file, and a converted
    one whose sanitized path [with_suffix] leaves as it is. *)
Lemma download_file_second_run (svc : service) (osf : os_faults)
    (file_id file_path mime_type : string) (w w1 : world) (p : PurePath.t) :
  sanitize_path file_path = Ok p ->
  final_path mime_type p = Ok p ->
  fs w !! str p = None ->
  download_file_try svc osf file_id file_path mime_type w = (Ok tt, w1) ->
  download_file svc osf file_id file_path mime_type (restart w1)
  = (Ok tt, emit (EvExists (str p)) (restart w1))
  /\ fetch_calls (trace (download_file svc osf file_id file_path mime_type
                           (restart w1)).2) = 0%nat.
Proof.
  intros Hp Hfinal Hnone Htry.
  destruct (download_file_try_spec svc osf file_id file_path mime_type w)
    as [_ Hspec].
  rewrite Hp, Htry in Hspec. unfold os_path_exists in Hspec.
  rewrite bool_decide_eq_false_2 in Hspec by (by apply eq_None_not_Some).
  destruct Hspec as [(e & [=] & _)|(dst & _ & Hdst & _ & Hfs & _)].
  rewrite Hfinal in Hdst. injection Hdst as <-. simpl in Hfs.
  assert (download_file svc osf file_id file_path mime_type (restart w1)
          = (Ok tt, emit (EvExists (str p)) (restart w1))) as Hskip.
  { apply download_file_skip; [done|]. simpl. rewrite Hfs, lookup_insert_eq. eauto. }
  by rewrite Hskip.
Qed.

(** C4, where the code departs from it.  The document named [docs/]
    is fetched, converted and stored by a first run, and fetched
    again by the second run over the same destination: the check looks
    for [test/docs/.pdf], the file was stored as [test/docs/.pdf.pdf]. *)
Theorem second_run_fetches_again :
  let first := main two_chunks no_faults slash_named empty_world in
  let second := main two_chunks no_faults slash_named (restart first.2) in
  first.1 = Ok tt
  /\ failed_downloads_txt first.2 = []
  /\ fs first.2 !! "test/docs/.pdf.pdf" = Some (File [Byte.x78; Byte.x79])
  /\ trace second.2
     = [ EvMakedirs "./test"; EvMakedirs "./test/docs";
         EvExists "test/docs/.pdf";
         EvRequest (export_media "d1" "application/pdf");
         EvOpen "test/docs/.pdf.temp"; EvNextChunk; EvNextChunk;
         EvRename "test/docs/.pdf.temp" "test/docs/.pdf.pdf" ]
  /\ fetch_calls (trace second.2) = 2%nat.
Proof. by vm_compute. Qed.

End DownloadClaims.

(** ** The bounded job executor *)

Section Executor.
Import JobExecutor.

Lemma init_inv (k : Z) (s : t) : init k = Ok s -> executor_inv s /\ max_workers s = k.
Proof.
  unfold init. destruct (Z.leb_spec k 0); [done|]. intros [= <-].
  repeat split; simpl; try lia.
  - apply NoDup_nil_2.
  - by intros f Hf%not_elem_of_nil.
Qed.

(** The futures [wait] reports are the tracked ones that are done. *)
Lemma wait_first_completed_done (c : gset nat) (fs done : list nat) :
  wait_first_completed c fs = Some done ->
  done = filter (fun f => f ∈ c) fs /\ (fs <> [] -> done <> []).
Proof.
  unfold wait_first_completed. destruct fs as [|f fs].
  - intros [= <-]. by split.
  - destruct (filter _ (f :: fs)) as [|d ds] eqn:E; [done|].
    intros [= <-]. by split.
Qed.

Lemma wait_first_completed_blocked (c : gset nat) (fs : list nat) :
  wait_first_completed c fs = None <-> fs <> [] /\ forall f, f ∈ fs -> f ∉ c.
Proof.
  unfold wait_first_completed. destruct fs as [|f fs]; [by split; [|intros [? _]]|].
  destruct (filter _ (f :: fs)) as [|d ds] eqn:E.
  - split; [|done]. intros _. split; [done|].
    intros g Hg Hc. assert (g ∈ filter (fun f => f ∈ c) (f :: fs)) as Hin
      by by apply list_elem_of_filter.
    rewrite E in Hin. by apply not_elem_of_nil in Hin.
  - split; [done|]. intros [_ H].
    assert (d ∈ filter (fun f => f ∈ c) (f :: fs)) as Hin
      by (rewrite E; apply list_elem_of_here).
    apply list_elem_of_filter in Hin as [Hc Hd]. by destruct (H d).
Qed.

(** Dropping what [wait] reported drops the tracked futures that are done. *)
Lemma filter_not_done (c : gset nat) (fs : list nat) :
  filter (fun f => f ∉ filter (fun f => f ∈ c) fs) fs
  = filter (fun f => f ∉ c) fs.
Proof.
  assert (forall l : list nat, (forall f, f ∈ l -> f ∈ fs) ->
            filter (fun f => f ∉ filter (fun f => f ∈ c) fs) l
            = filter (fun f => f ∉ c) l) as H.
  { induction l as [|x l IH]; [done|]. intros Hl.
    rewrite !filter_cons, IH by (intros f Hf; apply Hl; by right).
    assert (x ∈ fs) as Hx by (apply Hl; by left).
    destruct (decide (x ∉ filter (fun f => f ∈ c) fs)) as [H1|H1];
      destruct (decide (x ∉ c)) as [H2|H2]; try done.
    - destruct H1. apply dec_stable in H2. by apply list_elem_of_filter.
    - destruct H1. intros [Hc _]%list_elem_of_filter. done. }
  by apply H.
Qed.

(** [submit_job], in closed form. *)
Lemma submit_job_below (s : t) :
  Z.of_nat (length (futures s)) < max_workers s ->
  submit_job s
  = Some (created s,
          Build (max_workers s) (futures s ++ [created s]) (S (created s))
                (completed s)).
Proof.
  intros H. unfold submit_job.
  by rewrite Z.geb_leb, (proj2 (Z.leb_gt _ _)) by lia.
Qed.

Lemma submit_job_full (s : t) :
  max_workers s <= Z.of_nat (length (futures s)) ->
  submit_job s
  = match wait_first_completed (completed s) (futures s) with
    | Some _ =>
        Some (created s,
              Build (max_workers s)
                    (filter (fun f => f ∉ completed s) (futures s) ++ [created s])
                    (S (created s)) (completed s))
    | None => None
    end.
Proof.
  intros H. unfold submit_job.
  rewrite Z.geb_leb, (proj2 (Z.leb_le _ _)) by lia.
  destruct (wait_first_completed _ _) as [ready|] eqn:E; [|reflexivity].
  apply wait_first_completed_done in E as [-> _]. by rewrite filter_not_done.
Qed.

Lemma submit_job_inv (s s' : t) (f : nat) :
  executor_inv s -> submit_job s = Some (f, s') ->
  executor_inv s' /\ max_workers s' = max_workers s.
Proof.
  intros (Hpos & Hnd & Hlt & Hcov & Hlen) Hsub.
  destruct (Z.lt_ge_cases (Z.of_nat (length (futures s))) (max_workers s))
    as [Hbelow|Hfull].
  - rewrite submit_job_below in Hsub by done. injection Hsub as <- <-.
    split; [|done]. repeat split; simpl; [done| | | |].
    + apply NoDup_app. repeat split; [done| |apply NoDup_singleton].
      intros g Hg ->%list_elem_of_singleton. apply Hlt in Hg. lia.
    + intros g [Hg| ->%list_elem_of_singleton]%elem_of_app; [|lia].
      apply Hlt in Hg. lia.
    + intros g Hg Hc. apply elem_of_app.
      destruct (decide (g = created s)) as [->|Hne];
        [right; apply list_elem_of_singleton; done|].
      left. apply Hcov; [lia|done].
    + rewrite length_app. simpl. lia.
  - rewrite submit_job_full in Hsub by done.
    destruct (wait_first_completed (completed s) (futures s)) as [ready|] eqn:E;
      [|done].
    injection Hsub as <- <-. split; [|done].
    apply wait_first_completed_done in E as [-> Hne].
    assert (futures s <> []) as Hfs by (intros E; rewrite E in Hfull; simpl in Hfull; lia).
    specialize (Hne Hfs).
    destruct (filter (fun f => f ∈ completed s) (futures s)) as [|d ds] eqn:Ed; [done|].
    assert (d ∈ futures s /\ d ∈ completed s) as [Hd Hdc].
    { assert (d ∈ filter (fun f => f ∈ completed s) (futures s)) as Hin
        by (rewrite Ed; apply list_elem_of_here).
      by apply list_elem_of_filter in Hin as [? ?]. }
    repeat split; simpl; [done| | | |].
    + apply NoDup_app. repeat split; [by apply NoDup_filter| |apply NoDup_singleton].
      intros g [_ Hg]%list_elem_of_filter ->%list_elem_of_singleton.
      apply Hlt in Hg. lia.
    + intros g [[_ Hg]%list_elem_of_filter| ->%list_elem_of_singleton]%elem_of_app;
        [|lia].
      apply Hlt in Hg. lia.
    + intros g Hg Hc. apply elem_of_app.
      destruct (decide (g = created s)) as [->|Hne'];
        [right; apply list_elem_of_singleton; done|].
      left. apply list_elem_of_filter. split; [done|]. apply Hcov; [lia|done].
    + rewrite length_app. simpl.
      pose proof (length_filter_lt (fun f => f ∉ completed s) (futures s) d Hd) as Hl.
      assert (length (filter (fun f => f ∉ completed s) (futures s))
              < length (futures s))%nat by (apply Hl; by intros H).
      lia.
Qed.

Lemma complete_inv (s : t) (f : nat) : executor_inv s -> executor_inv (complete f s).
Proof.
  intros (Hpos & Hnd & Hlt & Hcov & Hlen). repeat split; simpl; try done.
  intros g Hg Hc. apply Hcov; [done|]. set_solver.
Qed.

Lemma step_inv (s s' : t) :
  step s s' -> executor_inv s -> executor_inv s' /\ max_workers s' = max_workers s.
Proof.
  intros [s0 f s1 Hsub|s0 f Hf Hc] Hinv.
  - by eapply submit_job_inv.
  - split; [by apply complete_inv|done].
Qed.

Lemma run_inv (s s' : t) :
  rtc step s s' -> executor_inv s -> executor_inv s' /\ max_workers s' = max_workers s.
Proof.
  induction 1 as [s|s1 s2 s3 Hstep _ IH]; [done|].
  intros Hinv. destruct (step_inv _ _ Hstep Hinv) as [Hinv2 Hk].
  destruct (IH Hinv2) as [Hinv3 Hk3]. split; [done|congruence].
Qed.

(** The jobs in flight are among the tracked futures. *)
Lemma in_flight_tracked (s : t) :
  executor_inv s -> (length (in_flight s) <= length (futures s))%nat.
Proof.
  intros (_ & _ & _ & Hcov & _). apply submseteq_length, NoDup_submseteq.
  - apply NoDup_filter, NoDup_seq.
  - intros f [Hc Hf%elem_of_seq]%list_elem_of_filter. apply Hcov; [lia|done].
Qed.

(** A future of the pool that is not tracked is done. *)
Lemma untracked_completed (s : t) (f : nat) :
  executor_inv s -> (f < created s)%nat -> f ∉ futures s -> f ∈ completed s.
Proof.
  intros (_ & _ & _ & Hcov & _) Hf Hnot.
  destruct (decide (f ∈ completed s)) as [|Hc]; [done|].
  destruct Hnot. by apply Hcov.
Qed.

Lemma wait_completion_returns (s : t) :
  wait_completion s = Some tt <-> forall f, f ∈ futures s -> f ∈ completed s.
Proof.
  unfold wait_completion, wait_all_completed.
  destruct (forallb _ (futures s)) eqn:E.
  - split; [|done]. intros _ f Hf.
    rewrite forallb_forall in E. apply list_elem_of_In in Hf.
    specialize (E f Hf). by apply bool_decide_eq_true in E.
  - split; [done|]. intros H. assert (forallb (fun f => bool_decide (f ∈ completed s)) (futures s) = true) as E'.
    { apply forallb_forall. intros f Hf%list_elem_of_In.
      apply bool_decide_eq_true. by apply H. }
    congruence.
Qed.

Lemma step_after_submit (s : t) :
  is_Some (submit_job s) -> step s (after_submit s).
Proof.
  unfold after_submit. intros [[f s'] H]. rewrite H. by eapply step_submit.
Qed.

Lemma complete_all_fields (l : list nat) (s : t) :
  max_workers (complete_all l s) = max_workers s
  /\ futures (complete_all l s) = futures s
  /\ created (complete_all l s) = created s
  /\ completed (complete_all l s) = list_to_set l ∪ completed s.
Proof.
  induction l as [|f l (H1 & H2 & H3 & H4)]; simpl.
  - repeat split. by rewrite (left_id_L ∅ (∪)).
  - repeat split; try done. by rewrite H4, (assoc_L (∪)).
Qed.

Lemma complete_all_steps (l : list nat) (s : t) :
  NoDup l ->
  (forall f, f ∈ l -> (f < created s)%nat /\ f ∉ completed s) ->
  rtc step s (complete_all l s).
Proof.
  induction l as [|f l IH]; [by intros|].
  intros [Hf Hl]%NoDup_cons H. simpl.
  destruct (complete_all_fields l s) as (_ & _ & Hc & Hd).
  eapply rtc_r.
  - apply IH; [done|]. intros g Hg. apply H. by right.
  - destruct (H f) as [Hlt Hnot]; [by left|].
    apply step_complete; [by rewrite Hc|].
    rewrite Hd. rewrite elem_of_union, elem_of_list_to_set. tauto.
Qed.

(** Once the jobs in flight have finished, [wait_completion] returns:
    the barrier is reached in every run. *)
Lemma wait_completion_reached (s : t) :
  executor_inv s ->
  rtc step s (complete_all (in_flight s) s)
  /\ wait_completion (complete_all (in_flight s) s) = Some tt.
Proof.
  intros (_ & _ & Hlt & _ & _). split.
  - apply complete_all_steps; [apply NoDup_filter, NoDup_seq|].
    intros f [Hc Hf%elem_of_seq]%list_elem_of_filter. split; [lia|done].
  - apply wait_completion_returns. intros f Hf.
    destruct (complete_all_fields (in_flight s) s) as (_ & Hfs & _ & ->).
    rewrite Hfs in Hf. apply Hlt in Hf.
    rewrite elem_of_union, elem_of_list_to_set.
    destruct (decide (f ∈ completed s)) as [|Hc]; [by right|left].
    apply list_elem_of_filter. split; [done|]. apply elem_of_seq. lia.
Qed.

End Executor.

Section ExecutorClaims.
Import JobExecutor.

(** C2.  In every run of an executor created with capacity [k], the
    jobs in flight (submitted, not completed) and the tracked futures
    number at most [k], also right after every [submit_job] call. *)
Theorem bounded_in_flight (k : Z) (s0 s : t) :
  init k = Ok s0 -> rtc step s0 s ->
  Z.of_nat (length (in_flight s)) <= k
  /\ Z.of_nat (length (futures s)) <= k
  /\ forall f s', submit_job s = Some (f, s') ->
       Z.of_nat (length (futures s')) <= k
       /\ Z.of_nat (length (in_flight s')) <= k.
Proof.
  intros [Hinv0 Hk0]%init_inv Hrun.
  destruct (run_inv _ _ Hrun Hinv0) as [Hinv Hk]. rewrite Hk0 in Hk.
  assert (forall s, executor_inv s -> max_workers s = k ->
            Z.of_nat (length (in_flight s)) <= k
            /\ Z.of_nat (length (futures s)) <= k) as Hbound.
  { intros s1 Hinv1 Hk1. pose proof (in_flight_tracked s1 Hinv1).
    destruct Hinv1 as (_ & _ & _ & _ & Hlen). lia. }
  destruct (Hbound s Hinv Hk) as [H1 H2]. split; [done|]. split; [done|].
  intros f s' Hsub. destruct (submit_job_inv _ _ _ Hinv Hsub) as [Hinv' Hk'].
  destruct (Hbound s' Hinv') as [H1' H2']; [congruence|]. done.
Qed.

Lemma pool2_run : rtc step pool2 pool2_end.
Proof.
  unfold pool2_end, pool2_drained, pool2_full.
  eapply rtc_l; [apply step_after_submit; vm_compute; eauto|].
  eapply rtc_l; [apply step_after_submit; vm_compute; eauto|].
  eapply rtc_l; [apply (step_complete _ 0);
                 [vm_compute; lia|apply (bool_decide_unpack _); by vm_compute]|].
  eapply rtc_l; [apply step_after_submit; vm_compute; eauto|].
  eapply rtc_l; [apply (step_complete _ 1);
                 [vm_compute; lia|apply (bool_decide_unpack _); by vm_compute]|].
  eapply rtc_l; [apply (step_complete _ 2);
                 [vm_compute; lia|apply (bool_decide_unpack _); by vm_compute]|].
  apply rtc_refl.
Qed.

Lemma bounded_in_flight_witness :
  Z.of_nat (length (in_flight pool2_drained)) <= 2
  /\ futures pool2_drained = [1; 2]%nat
  /\ created pool2_drained = 3%nat.
Proof.
  assert (rtc step pool2 pool2_drained) as Hrun.
  { unfold pool2_drained, pool2_full.
    eapply rtc_l; [apply step_after_submit; vm_compute; eauto|].
    eapply rtc_l; [apply step_after_submit; vm_compute; eauto|].
    eapply rtc_l; [apply (step_complete _ 0);
                   [vm_compute; lia|apply (bool_decide_unpack _); by vm_compute]|].
    eapply rtc_l; [apply step_after_submit; vm_compute; eauto|].
    apply rtc_refl. }
  destruct (bounded_in_flight 2 pool2 pool2_drained eq_refl Hrun) as (H & _ & _).
  split; [exact H|]. by vm_compute.
Defined.

(** C7.  Below capacity [submit_job] returns at once, with the new
    future appended to the tracked list.  At capacity the call does
    not return while no tracked future is done; once one is, it
    returns with the tracked list cleared of every future that is
    done and the new future appended. *)
Theorem submit_job_blocks_and_drains (s : t) :
  0 < max_workers s ->
  (Z.of_nat (length (futures s)) < max_workers s ->
     submit_job s
     = Some (created s,
             Build (max_workers s) (futures s ++ [created s])
                   (S (created s)) (completed s)))
  /\ (max_workers s <= Z.of_nat (length (futures s)) ->
        (submit_job s = None <-> forall f, f ∈ futures s -> f ∉ completed s)
        /\ ((exists f, f ∈ futures s /\ f ∈ completed s) ->
              submit_job s
              = Some (created s,
                      Build (max_workers s)
                            (filter (fun f => f ∉ completed s) (futures s)
                               ++ [created s])
                            (S (created s)) (completed s)))).
Proof.
  intros Hpos. split; [apply submit_job_below|].
  intros Hfull. rewrite submit_job_full by done.
  assert (futures s <> []) as Hne
    by (intros E; rewrite E in Hfull; simpl in Hfull; lia).
  destruct (wait_first_completed (completed s) (futures s)) as [ready|] eqn:E.
  - split.
    + split; [done|]. intros H.
      assert (wait_first_completed (completed s) (futures s) = None) as E'
        by by apply wait_first_completed_blocked.
      congruence.
    + done.
  - apply wait_first_completed_blocked in E as [_ E]. split; [done|].
    intros (f & Hf & Hc). by destruct (E f).
Qed.

Lemma submit_job_blocks_and_drains_witness :
  submit_job pool2_full = None
  /\ futures pool2_both_done = [0; 1]%nat
  /\ (futures <$> (snd <$> submit_job pool2_both_done)) = Some [2]%nat
  /\ (futures <$> (snd <$> submit_job (after_submit pool2))) = Some [0; 1]%nat.
Proof.
  destruct (submit_job_blocks_and_drains pool2_full ltac:(by vm_compute))
    as [_ Hfull].
  destruct (Hfull ltac:(by vm_compute)) as [Hblocked _].
  destruct (submit_job_blocks_and_drains pool2_both_done ltac:(by vm_compute))
    as [_ Hfull'].
  destruct (Hfull' ltac:(by vm_compute)) as [_ Hdrain].
  destruct (submit_job_blocks_and_drains (after_submit pool2) ltac:(by vm_compute))
    as [Hbelow _].
  split; [|split; [by vm_compute|split]].
  - apply Hblocked. intros f Hf. vm_compute in Hf.
    apply list_elem_of_In in Hf. destruct Hf as [<-|[<-|[]]]; by vm_compute.
  - rewrite Hdrain; [by vm_compute|].
    exists 0%nat. split; [apply list_elem_of_In; vm_compute; tauto|by vm_compute].
  - rewrite Hbelow; by vm_compute.
Defined.

(** C8.  When [wait_completion] returns, every future the pool ever
    created is done, the ones dropped from the tracked list by an
    earlier [submit_job] too; no job is in flight. *)
Theorem wait_completion_barrier (k : Z) (s0 s : t) :
  init k = Ok s0 -> rtc step s0 s ->
  wait_completion s = Some tt ->
  (forall f, (f < created s)%nat -> f ∈ completed s) /\ in_flight s = [].
Proof.
  intros [Hinv0 _]%init_inv Hrun Hret.
  destruct (run_inv _ _ Hrun Hinv0) as [Hinv _].
  rewrite wait_completion_returns in Hret.
  assert (forall f, (f < created s)%nat -> f ∈ completed s) as Hall.
  { intros f Hf. destruct (decide (f ∈ futures s)) as [Hin|Hout].
    - by apply Hret.
    - by apply untracked_completed. }
  split; [done|]. unfold in_flight.
  destruct (filter _ _) as [|f fs] eqn:E; [done|].
  assert (f ∈ filter (fun f => f ∉ completed s) (seq 0 (created s))) as Hf
    by (rewrite E; apply list_elem_of_here).
  apply list_elem_of_filter in Hf as [Hc Hf%elem_of_seq]. destruct Hc.
  apply Hall. lia.
Qed.

Lemma wait_completion_barrier_witness :
  futures pool2_end = [1; 2]%nat
  /\ created pool2_end = 3%nat
  /\ (forall f, (f < 3)%nat -> f ∈ completed pool2_end).
Proof.
  split; [by vm_compute|]. split; [by vm_compute|].
  exact (proj1 (wait_completion_barrier 2 pool2 pool2_end eq_refl pool2_run
                  ltac:(by vm_compute))).
Defined.

End ExecutorClaims.

(** ** The traversal driver *)

Section Traversal.
Context (osf : os_faults).

(** Induction on a listing, with the listings of all its entries. *)
Lemma listing_nested_ind (P : listing -> Prop) :
  (forall e, P (ListError e)) ->
  (forall items,
      (forall id name mime ch, In (Item id name mime ch) items -> P ch) ->
      P (LastPage items)) ->
  (forall items rest,
      (forall id name mime ch, In (Item id name mime ch) items -> P ch) ->
      P rest -> P (NextPage items rest)) ->
  forall pages, P pages.
Proof.
  intros He Hl Hn. fix IH 1. intros [e|items|items rest].
  - apply He.
  - apply Hl. induction items as [|[id0 name0 mime0 ch0] items IHitems].
    + intros ? ? ? ? [].
    + intros id name mime ch [[= _ _ _ <-]|Hin]; [apply IH|by eapply IHitems].
  - apply Hn; [|apply IH].
    induction items as [|[id0 name0 mime0 ch0] items IHitems].
    + intros ? ? ? ? [].
    + intros id name mime ch [[= _ _ _ <-]|Hin]; [apply IH|by eapply IHitems].
Qed.

Lemma for_each_app (visit : item -> crawl -> result unit * crawl)
    (xs ys : list item) (c : crawl) :
  for_each visit (xs ++ ys) c
  = match for_each visit xs c with
    | (Ok _, c') => for_each visit ys c'
    | (Raise e, c') => (Raise e, c')
    end.
Proof.
  revert c. induction xs as [|x xs IH]; intros c; [done|].
  simpl. destruct (visit x c) as [[[]|e] c']; [apply IH|done].
Qed.

Lemma os_makedirs_ok (p : string) (c : crawl) :
  makedirs_ok osf -> dirs_only (disk c) ->
  exists c', os_makedirs osf p c = (Ok tt, c')
    /\ dirs_only (disk c')
    /\ submitted c' = submitted c
    /\ failed_folders_txt (disk c') = failed_folders_txt (disk c).
Proof.
  intros Hmk Hdirs. unfold os_makedirs. rewrite Hmk.
  change (fs (emit (EvMakedirs p) (disk c))) with (fs (disk c)).
  destruct (fs (disk c) !! p) as [[data|]|] eqn:E;
    [by apply Hdirs in E|..].
  all: eexists; split; [done|]; split; [|done].
  all: intros q n; simpl; destruct (decide (p = q)) as [<-|Hne];
    [rewrite lookup_insert_eq; by intros [= <-]
    |rewrite lookup_insert_ne by done; apply Hdirs].
Qed.

(** Where every directory can be made, the traversal of a listing
    submits exactly [all_jobs], raises exactly when a page of the
    folder itself cannot be listed, and only adds to the folder log. *)
Lemma list_all_files_spec (pages : listing) :
  makedirs_ok osf ->
  forall local_path c, dirs_only (disk c) ->
    dirs_only (disk (list_all_files osf pages local_path c).2)
    /\ submitted (list_all_files osf pages local_path c).2
       = submitted c ++ all_jobs pages local_path
    /\ (list_all_files osf pages local_path c).1
       = match listing_error pages with None => Ok tt | Some e => Raise e end
    /\ failed_folders_txt (disk c)
       `prefix_of` failed_folders_txt (disk (list_all_files osf pages local_path c).2).
Proof.
  intros Hmk.
  assert (forall items local_path,
    (forall id name mime ch, In (Item id name mime ch) items ->
       forall local_path c, dirs_only (disk c) ->
         dirs_only (disk (list_all_files osf ch local_path c).2)
         /\ submitted (list_all_files osf ch local_path c).2
            = submitted c ++ all_jobs ch local_path
         /\ (list_all_files osf ch local_path c).1
            = match listing_error ch with None => Ok tt | Some e => Raise e end
         /\ failed_folders_txt (disk c)
            `prefix_of` failed_folders_txt (disk (list_all_files osf ch local_path c).2)) ->
    forall c, dirs_only (disk c) ->
      exists c',
        for_each (list_item osf (list_all_files osf) local_path) items c = (Ok tt, c')
        /\ dirs_only (disk c')
        /\ submitted c'
           = submitted c ++ flat_map (item_jobs all_jobs local_path) items
        /\ failed_folders_txt (disk c) `prefix_of` failed_folders_txt (disk c'))
    as Hitems.
  { induction items as [|[id name mime ch] items IHitems]; intros local_path IH c Hc.
    - exists c. simpl. by rewrite app_nil_r.
    - assert (exists c1,
                list_item osf (list_all_files osf) local_path (Item id name mime ch) c
                = (Ok tt, c1)
                /\ dirs_only (disk c1)
                /\ submitted c1
                   = submitted c ++ item_jobs all_jobs local_path (Item id name mime ch)
                /\ failed_folders_txt (disk c) `prefix_of` failed_folders_txt (disk c1))
        as (c1 & Hvisit & Hc1 & Hs1 & Hl1).
      { simpl. destruct (String.eqb mime folder_mime).
        - destruct (os_makedirs_ok (os_path_join local_path name) c Hmk Hc)
            as (c2 & -> & Hc2 & Hs2 & Hl2).
          destruct (IH id name mime ch (or_introl eq_refl)
                      (os_path_join local_path name) c2 Hc2) as (Hd & Hs & _ & Hl).
          rewrite Hl2 in Hl.
          destruct (list_all_files osf ch (os_path_join local_path name) c2)
            as [[[]|e] c3]; simpl in Hd, Hs, Hl.
          + exists c3. by rewrite Hs, Hs2.
          + eexists. split; [done|]. split; [done|]. simpl. rewrite Hs, Hs2.
            split; [done|]. by apply prefix_app_r.
        - eexists. by split. }
      destruct (IHitems local_path (fun i n m h Hin => IH i n m h (or_intror Hin)) c1 Hc1)
        as (c' & Hrest & Hc' & Hs' & Hl').
      exists c'. cbn [for_each]. rewrite Hvisit. split; [done|]. split; [done|].
      split; [|by etrans].
      rewrite Hs', Hs1. cbn [flat_map]. by rewrite app_assoc. }
  induction pages as [e|items IH|items rest IH IHrest] using listing_nested_ind;
    intros local_path c Hc.
  - simpl. by rewrite app_nil_r.
  - destruct (Hitems items local_path IH c Hc) as (c' & Hrun & Hc' & Hs' & Hl').
    simpl. by rewrite Hrun.
  - destruct (Hitems items local_path IH c Hc) as (c' & Hrun & Hc' & Hs' & Hl').
    destruct (IHrest local_path c' Hc') as (H1 & H2 & H3 & H4).
    simpl. rewrite Hrun.
    destruct (list_all_files osf rest local_path c') as [[[]|e] c''];
      simpl in H1, H2, H3, H4 |- *; rewrite H2, Hs', app_assoc;
      (split; [done|]); (split; [done|]); (split; [by rewrite <- ?H3|by etrans]).
Qed.

End Traversal.

Section TraversalClaims.
Import PurePath.

(** C3.  When the listing of a folder entry raises, the loop over the
    page catches the exception: the entry is done with, exactly one
    record [id,local_path,error] is appended to the folder failure
    log, and the loop goes on with the entries that follow.  Where
    directories can be made, these are all processed: the loop returns
    normally and every job of every following entry is submitted. *)
Theorem listing_failure_isolated (osf : os_faults) (local_path : string)
    (pre post : list item) (id name : string) (children : listing)
    (c c1 c2 c3 : crawl) (e : exn) :
  let visit := list_item osf (list_all_files osf) local_path in
  let folder := Item id name folder_mime children in
  let c4 := record_failed_folder id local_path (str_exn e) c3 in
  for_each visit pre c = (Ok tt, c1) ->
  os_makedirs osf (os_path_join local_path name) c1 = (Ok tt, c2) ->
  list_all_files osf children (os_path_join local_path name) c2 = (Raise e, c3) ->
  visit folder c1 = (Ok tt, c4)
  /\ failed_folders_txt (disk c4)
     = failed_folders_txt (disk c3)
         ++ [id +:+ "," +:+ local_path +:+ "," +:+ str_exn e +:+ String "010" ""]
  /\ submitted c4 = submitted c3
  /\ fs (disk c4) = fs (disk c3)
  /\ for_each visit (pre ++ folder :: post) c = for_each visit post c4
  /\ list_all_files osf (LastPage (pre ++ folder :: post)) local_path c
     = for_each visit post c4
  /\ (makedirs_ok osf -> dirs_only (disk c3) ->
      exists c5,
        for_each visit post c4 = (Ok tt, c5)
        /\ submitted c5
           = submitted c3 ++ flat_map (item_jobs all_jobs local_path) post
        /\ failed_folders_txt (disk c4) `prefix_of` failed_folders_txt (disk c5)).
Proof.
  intros visit folder c4 Hpre Hmk Hrec.
  assert (visit folder c1 = (Ok tt, c4)) as Hvisit.
  { subst visit folder c4. simpl. by rewrite Hmk, Hrec. }
  assert (for_each visit (pre ++ folder :: post) c = for_each visit post c4) as Hloop.
  { rewrite for_each_app, Hpre. cbn [for_each]. by rewrite Hvisit. }
  repeat (split; [done|]).
  intros Hok Hdirs.
  destruct (list_all_files_spec osf (LastPage post) Hok local_path c4 Hdirs)
    as (_ & Hs & Hr & Hl).
  change (list_all_files osf (LastPage post) local_path c4)
    with (for_each visit post c4) in Hs, Hr, Hl.
  destruct (for_each visit post c4) as [r c5] eqn:Hrun. simpl in Hs, Hr, Hl. subst r.
  by exists c5.
Qed.

Lemma listing_failure_isolated_witness :
  let r := list_all_files no_faults (LastPage failing_sibling) "./test" empty_crawl in
  r.1 = Ok tt
  /\ failed_folders_txt (disk r.2) = ["A,./test,quota exceeded" +:+ String "010" ""]
  /\ submitted r.2 = [Job "x" "./test/b/data.csv" "text/csv"].
Proof.
  cbv zeta.
  set (c2 := Crawl (World (<["./test/a" := Dir]> ∅) [] [] [EvMakedirs "./test/a"]) []).
  destruct (listing_failure_isolated no_faults "./test" []
              [Item "B" "b" folder_mime
                 (LastPage [Item "x" "data.csv" "text/csv" (LastPage [])])]
              "A" "a" (ListError quota_error)
              empty_crawl empty_crawl c2 c2 quota_error)
    as (_ & _ & _ & _ & _ & Hpage & Hrest); [done|by vm_compute|done|].
  destruct Hrest as (c5 & Hrun & Hjobs & _); [done| |].
  { intros q n H. subst c2. simpl in H.
    apply lookup_insert_Some in H as [[_ <-]|[_ H]]; [done|].
    by rewrite lookup_empty in H. }
  change (LastPage failing_sibling)
    with (LastPage ([] ++ Item "A" "a" folder_mime (ListError quota_error)
                      :: [Item "B" "b" folder_mime
                            (LastPage [Item "x" "data.csv" "text/csv" (LastPage [])])])).
  rewrite Hpage. clear Hrun Hjobs. by vm_compute.
Defined.



(** The converted document of the witness is stored as [Report.pdf]. *)
Example report_stored_as_pdf :
  fs (download_file two_chunks no_faults "d1" "./test/Report.pdf" google_doc
        empty_world).2 !! "test/Report.pdf"
  = Some (File [Byte.x78; Byte.x79]).
Proof. by vm_compute. Qed.

End TraversalClaims.

(** ** Suffixes, and the round trip through the text of a path *)

Section Suffixes.
Import PurePath.

Lemma rfind_absent (c : ascii) (s : string) :
  Py.contains c s = false -> Py.rfind c s = -1.
Proof.
  induction s as [|a s IH]; [done|]. simpl.
  intros [Ha Hs]%orb_false_elim. by rewrite (IH Hs), Ha.
Qed.

Lemma rfind_present (c : ascii) (s : string) :
  Py.contains c s = true -> 0 <= Py.rfind c s.
Proof.
  induction s as [|a s IH]; [done|]. simpl.
  destruct (Z.leb_spec 0 (Py.rfind c s)) as [Hi|Hi]; [lia|].
  destruct (Ascii.eqb a c); [lia|]. simpl. intros Hs. apply IH in Hs. lia.
Qed.

Lemma rfind_after (c : ascii) (x y : string) :
  Py.contains c y = false ->
  Py.rfind c (x +:+ String c y) = Z.of_nat (String.length x).
Proof.
  intros Hy. induction x as [|a x IH].
  - rewrite app_empty_l. simpl. by rewrite (rfind_absent c y Hy), Ascii.eqb_refl.
  - rewrite app_cons. cbn [Py.rfind]. rewrite IH.
    destruct (Z.leb_spec 0 (Z.of_nat (String.length x))) as [Hl|Hl];
      simpl String.length; lia.
Qed.

Lemma rfind_split (c : ascii) (s : string) :
  0 <= Py.rfind c s ->
  exists x y, s = x +:+ String c y /\ Py.contains c y = false.
Proof.
  induction s as [|a s IH]; [simpl; lia|]. cbn [Py.rfind].
  destruct (Z.leb_spec 0 (Py.rfind c s)) as [Hi|Hi].
  - intros _. destruct (IH Hi) as (x & y & -> & Hy). by exists (String a x), y.
  - destruct (Ascii.eqb_spec a c) as [->|_]; [|lia]. intros _.
    exists "", s. split; [done|].
    destruct (Py.contains c s) eqn:E; [|done]. apply rfind_present in E. lia.
Qed.

(** A name with a suffix is a non-empty stem, a dot, and a non-empty
    tail without a dot. *)
Lemma has_suffix_split (n : string) :
  has_suffix n = true ->
  exists x y, n = x +:+ String "." y /\ Py.contains "." y = false
              /\ x <> "" /\ y <> "".
Proof.
  unfold has_suffix. intros [H1 H2]%andb_prop.
  apply Z.ltb_lt in H1, H2.
  destruct (rfind_split "." n) as (x & y & -> & Hy); [lia|].
  rewrite rfind_after in H1, H2 by done.
  unfold Py.len in H2. rewrite length_app_str in H2. simpl in H2.
  exists x, y. repeat split; [done| |].
  - intros ->. simpl in H1. lia.
  - intros ->. simpl in H2. lia.
Qed.

Lemma take_app_length (x y : string) : Py.take (String.length x) (x +:+ y) = x.
Proof. induction x as [|a x IH]; [by destruct y|]. rewrite app_cons. simpl. by rewrite IH. Qed.

Lemma name_parts (n x y : string) :
  n = x +:+ String "." y -> Py.contains "." y = false -> x <> "" -> y <> "" ->
  has_suffix n = true
  /\ Py.take (Z.to_nat (Py.rfind "." n)) n = x
  /\ Py.drop (Z.to_nat (Py.rfind "." n)) n = String "." y.
Proof.
  intros -> Hy Hx Hy'. unfold has_suffix. rewrite rfind_after by done.
  rewrite Nat2Z.id, take_app_length, drop_app_length.
  split; [|done]. apply andb_true_intro. split.
  - apply Z.ltb_lt. destruct x; [done|]. simpl. lia.
  - apply Z.ltb_lt. unfold Py.len. rewrite length_app_str.
    destruct y; [done|]. simpl. lia.
Qed.

Lemma name_snoc (r : string) (pre : list string) (n : string) :
  name (Build r (pre ++ [n])) = n.
Proof. unfold name. simpl. apply last_last. Qed.

(** The stem is never longer than the name. *)
Lemma stem_length (p : t) : (String.length (stem p) <= String.length (name p))%nat.
Proof.
  unfold stem. destruct (has_suffix (name p)); [|done].
  rewrite length_take. lia.
Qed.

End Suffixes.

Section RoundTrip.
Import PurePath.

Lemma Path_wf (s : string) : wf_path (Path s).
Proof. split; [apply Path_root|apply Path_components]. Qed.

Lemma split_app_sep (c : ascii) (x r : string) :
  Py.contains c x = false -> Py.split c (x +:+ String c r) = x :: Py.split c r.
Proof.
  induction x as [|a x IH]; intros Hx.
  - rewrite app_empty_l. simpl. by rewrite Ascii.eqb_refl.
  - simpl in Hx. apply orb_false_elim in Hx as [Ha Hx].
    rewrite app_cons. cbn [Py.split]. by rewrite Ha, (IH Hx).
Qed.

Lemma split_join (l : list string) :
  l <> [] -> Forall (fun x => Py.contains sep x = false) l ->
  Py.split sep (Py.join "/" l) = l.
Proof.
  induction l as [|x l IH]; [done|]. intros _ Hl.
  apply Forall_cons in Hl as [Hx Hl]. destruct l as [|y l].
  - simpl. by apply split_no_sep.
  - change (Py.join "/" (x :: y :: l)) with (x +:+ String sep (Py.join "/" (y :: l))).
    rewrite split_app_sep by done. by rewrite IH.
Qed.

Lemma filter_keep_components (l : list string) :
  Forall component l -> List.filter keep_component l = l.
Proof.
  induction 1 as [|x l [_ Hk] _ IH]; [done|]. simpl. by rewrite Hk, IH.
Qed.

Lemma components_no_sep (l : list string) :
  Forall component l -> Forall (fun x => Py.contains sep x = false) l.
Proof. intros H. eapply Forall_impl; [exact H|]. by intros x [? _]. Qed.

(** The text of a path with components starts with its root, and
    what follows does not start with a separator. *)
Lemma join_head (x : string) (l : list string) :
  component x ->
  exists a r, Py.join "/" (x :: l) = String a r /\ Ascii.eqb a sep = false.
Proof.
  intros [Hs Hk]. destruct x as [|a x]; [done|].
  simpl in Hs. apply orb_false_elim in Hs as [Ha _].
  destruct l as [|y l]; [by exists a, x|].
  exists a, (x +:+ String sep (Py.join "/" (y :: l))). by split.
Qed.

(** Parsing the text of a path gives the path back. *)
Lemma parse_str (p : t) : wf_path p -> Path (str p) = p.
Proof.
  destruct p as [r l]. intros [Hr Hl]. simpl in Hr, Hl.
  destruct l as [|x l].
  - by destruct Hr as [->|[->| ->]].
  - apply Forall_cons in Hl as Hx. destruct Hx as [Hx _].
    destruct (join_head x l Hx) as (a & j & Hj & Ha).
    assert (List.filter keep_component (Py.split sep (String a j)) = x :: l) as Hparts.
    { rewrite <- Hj, split_join; [by apply filter_keep_components|done|].
      by apply components_no_sep. }
    unfold Path, parse_parts, str. simpl root. simpl parts. rewrite Hj.
    destruct Hr as [->|[->| ->]].
    + rewrite app_empty_l. simpl splitroot. rewrite Ha. simpl String.eqb.
      by rewrite Hparts.
    + change ("/" +:+ String a j) with (String sep (String a j)).
      simpl String.eqb. unfold splitroot. rewrite Ascii.eqb_refl.
      cbn [Py.lstrip]. rewrite Ascii.eqb_refl, Ha.
      replace (Py.len (String sep (String a j)) - Py.len (String a j) =? 2)
        with false; [by rewrite Hparts|].
      symmetry. apply Z.eqb_neq. unfold Py.len. simpl String.length. lia.
    + change ("//" +:+ String a j) with (String sep (String sep (String a j))).
      simpl String.eqb. unfold splitroot. rewrite Ascii.eqb_refl.
      cbn [Py.lstrip]. rewrite !Ascii.eqb_refl, Ha.
      replace (Py.len (String sep (String sep (String a j))) - Py.len (String a j) =? 2)
        with true; [by rewrite Hparts|].
      symmetry. apply Z.eqb_eq. unfold Py.len. simpl String.length. lia.
Qed.

(** Appending to the text of a path appends to its name. *)
Lemma str_snoc_app (r : string) (pre : list string) (n t : string) :
  n <> "" ->
  str (Build r (pre ++ [n])) +:+ t = str (Build r (pre ++ [n +:+ t])).
Proof.
  intros Hn. unfold str. simpl root. simpl parts.
  assert (forall m, Py.join "/" (pre ++ [m])
                    = match pre with
                      | [] => m
                      | _ => Py.join "/" pre +:+ "/" +:+ m
                      end) as Hjoin.
  { intros m. destruct pre as [|x pre]; [done|]. by rewrite join_snoc. }
  rewrite !Hjoin.
  assert (forall m, m <> "" ->
            String.eqb (r +:+ match pre with
                              | [] => m
                              | _ => Py.join "/" pre +:+ "/" +:+ m
                              end) "" = false) as Hne.
  { intros m Hm. apply string_eqb_false_length.
    destruct pre; rewrite ?length_app_str; destruct m; simpl; try done; lia. }
  rewrite !Hne; [|by destruct n|done].
  destruct pre; by rewrite !app_assoc_str.
Qed.

Lemma sanitize_cases (path : string) (p : t) :
  sanitize_path path = Ok p ->
  name (Path path) <> ""
  /\ ((Py.len (stem (Path path)) <= 250 /\ p = Path path)
      \/ (250 < Py.len (stem (Path path)) /\ p = truncated (Path path))).
Proof.
  intros H. destruct (String.eqb_spec (name (Path path)) "") as [E|E].
  { by rewrite sanitize_path_empty_name in H. }
  split; [done|].
  destruct (Z.lt_ge_cases 250 (Py.len (stem (Path path)))) as [Hl|Hl].
  - right. rewrite sanitize_path_long in H by done. by injection H as <-.
  - left. rewrite sanitize_path_short in H by (done || lia).
    injection H as <-. split; [lia|done].
Qed.

Lemma truncated_name_not_empty (p : t) :
  250 < Py.len (stem p) -> name (truncated p) <> "".
Proof.
  intros Hl. unfold truncated. rewrite name_snoc. intros E.
  apply (f_equal String.length) in E.
  rewrite length_app_str, length_take in E. unfold Py.len in Hl.
  change (String.length "") with 0%nat in E. lia.
Qed.

Lemma truncated_stem (p : t) :
  250 < Py.len (stem p) -> (String.length (stem (truncated p)) <= 245)%nat.
Proof.
  intros Hl. unfold Py.len in Hl.
  destruct (has_suffix (name p)) eqn:Hs.
  - destruct (has_suffix_split _ Hs) as (x & y & Hn & Hy & Hx & Hy').
    destruct (name_parts _ x y Hn Hy Hx Hy') as (_ & Hstem & Hsuf).
    assert (stem p = x) as Ex by (unfold stem; by rewrite Hs).
    assert (suffix p = String "." y) as Ey by (unfold suffix; by rewrite Hs).
    rewrite Ex in Hl.
    assert (Py.take 245 x <> "") as Hx'.
    { intros E. apply (f_equal String.length) in E. rewrite length_take in E.
      change (String.length "") with 0%nat in E. lia. }
    destruct (name_parts (Py.take 245 x +:+ String "." y) (Py.take 245 x) y
                eq_refl Hy Hx' Hy') as (Hs' & Hstem' & _).
    unfold truncated. rewrite Ex, Ey. unfold stem.
    rewrite name_snoc, Hs', Hstem', length_take. lia.
  - assert (suffix p = "") as Ey by (unfold suffix; by rewrite Hs).
    pose proof (stem_length (truncated p)) as Hle.
    unfold truncated in Hle |- *. rewrite name_snoc, Ey, app_empty_r, length_take in Hle.
    rewrite Ey, app_empty_r. lia.
Qed.

Lemma truncated_wf (p : t) :
  wf_path p -> 250 < Py.len (stem p) -> name p <> "" -> wf_path (truncated p).
Proof.
  intros [Hr Hc] Hl Hn. split; [done|]. unfold truncated. cbn [parts].
  apply Forall_app. split.
  - rewrite <- (parts_removelast_name p Hn) in Hc. by apply Forall_app in Hc as [? _].
  - apply Forall_singleton. destruct (name_component p Hc Hn) as [Hs _].
    apply long_component.
    + rewrite contains_app, contains_take, suffix_no_sep; auto using stem_no_sep.
    + unfold Py.len in Hl. rewrite length_app_str, length_take. lia.
Qed.

Lemma sanitize_wf (path : string) (p : t) :
  sanitize_path path = Ok p -> wf_path p /\ name p <> "".
Proof.
  intros [Hn [[_ ->]|[Hl ->]]]%sanitize_cases.
  - split; [apply Path_wf|done].
  - split; [|by apply truncated_name_not_empty].
    apply truncated_wf; [apply Path_wf|done..].
Qed.

End RoundTrip.

(** ** More on the path sanitizer and the temp path *)

Section SanitizerMore.
Import PurePath.

(** X1.  The path [sanitize_path] returns has a stem of at most 250
    characters, a file name, and the root and the directories of the
    path it was given. *)
Theorem sanitize_path_result_bounds (path : string) (p : t) :
  sanitize_path path = Ok p ->
  Py.len (stem p) <= 250
  /\ name p <> ""
  /\ root p = root (Path path)
  /\ removelast (parts p) = removelast (parts (Path path)).
Proof.
  intros H. destruct (sanitize_wf _ _ H) as [_ Hn].
  destruct (sanitize_cases _ _ H) as [_ [[Hl ->]|[Hl ->]]]; [done|].
  split; [|split; [done|split; [done|]]].
  - pose proof (truncated_stem _ Hl). unfold Py.len. lia.
  - unfold truncated. cbn [parts]. apply removelast_last.
Qed.

Lemma sanitize_path_result_bounds_witness :
  Py.len (stem (truncated (Path ("./test/" +:+ long_name)))) <= 250
  /\ name (truncated (Path ("./test/" +:+ long_name))) <> "".
Proof.
  assert (sanitize_path ("./test/" +:+ long_name)
          = Ok (truncated (Path ("./test/" +:+ long_name)))) as H
    by (apply sanitize_path_long; by vm_compute).
  destruct (sanitize_path_result_bounds _ _ H) as (H1 & H2 & _ & _).
  by split.
Defined.

(** X2.  Sanitizing the text of a sanitized path gives the same path:
    a second pass changes nothing. *)
Theorem sanitize_path_idempotent (path : string) (p : t) :
  sanitize_path path = Ok p -> sanitize_path (str p) = Ok p.
Proof.
  intros H. destruct (sanitize_wf _ _ H) as [Hwf Hn].
  assert (Py.len (stem p) <= 250) as Hl.
  { destruct (sanitize_cases _ _ H) as [_ [[Hl ->]|[Hl ->]]]; [done|].
    pose proof (truncated_stem _ Hl). unfold Py.len. lia. }
  pose proof (parse_str p Hwf) as Hp.
  rewrite <- Hp at 2. apply sanitize_path_short; by rewrite Hp.
Qed.

Lemma sanitize_path_idempotent_witness :
  sanitize_path (str (truncated (Path ("./test/" +:+ long_name))))
  = Ok (truncated (Path ("./test/" +:+ long_name))).
Proof.
  apply (sanitize_path_idempotent ("./test/" +:+ long_name)).
  apply sanitize_path_long. by vm_compute.
Defined.

(** X3.  The temp path of a job lies in the directory of its sanitized
    destination and is named after it, with ['.temp'] appended. *)
Theorem temp_path_beside_destination (path : string) (p : t) :
  sanitize_path path = Ok p ->
  Path (str p +:+ ".temp")
  = Build (root p) (removelast (parts p) ++ [name p +:+ ".temp"])
  /\ temp_path p = str p +:+ ".temp".
Proof.
  intros H. destruct (sanitize_wf _ _ H) as [[Hr Hc] Hn].
  assert (wf_path (Build (root p) (removelast (parts p) ++ [name p +:+ ".temp"])))
    as Hwf.
  { split; [done|]. cbn [parts]. apply Forall_app. split.
    - rewrite <- (parts_removelast_name p Hn) in Hc. by apply Forall_app in Hc as [? _].
    - apply Forall_singleton. destruct (name_component p Hc Hn) as [Hs _].
      apply long_component.
      + by rewrite contains_app, Hs.
      + rewrite length_app_str. simpl. lia. }
  assert (str p +:+ ".temp"
          = str (Build (root p) (removelast (parts p) ++ [name p +:+ ".temp"]))) as Hstr.
  { rewrite <- str_snoc_app by done. rewrite parts_removelast_name by done.
    by destruct p. }
  unfold temp_path. rewrite Hstr, parse_str by done. by split.
Qed.

Lemma temp_path_beside_destination_witness :
  temp_path (Path "./test/data.csv") = str (Path "./test/data.csv") +:+ ".temp".
Proof.
  apply (temp_path_beside_destination "./test/data.csv" (Path "./test/data.csv")).
  apply sanitize_path_short; by vm_compute.
Defined.

End SanitizerMore.

(** ** More on the download protocol *)

Section DownloadMore.
Import PurePath.

Local Abbreviation last_piece c s := (List.last (Py.split c s) "").

Lemma endswith_split (a t : string) :
  Py.endswith a t = true -> exists x, a = x +:+ t.
Proof.
  unfold Py.endswith. intros [_ H]%andb_prop. apply String.eqb_eq in H.
  set (k := (String.length a - String.length t)%nat) in H.
  exists (Py.take k a). rewrite <- H. symmetry. apply take_drop_str.
Qed.

Lemma startswith_no_sep (b : string) :
  Py.contains sep b = false -> Py.startswith b "/" = false.
Proof.
  destruct b as [|a b]; [done|]. cbn [Py.contains Py.startswith].
  intros [Ha _]%orb_false_elim. change "/"%char with sep.
  by rewrite Ascii.eqb_sym, Ha.
Qed.

(** What follows the last separator of [os.path.join(a, b)] is [b],
    when [b] holds no separator. *)
Lemma last_piece_join (a b : string) :
  Py.contains sep b = false -> last_piece sep (os_path_join a b) = b.
Proof.
  intros Hb. unfold os_path_join. rewrite startswith_no_sep by done.
  destruct (String.eqb_spec a "") as [->|_]; simpl orb.
  - rewrite app_empty_l. by apply last_piece_no_sep.
  - destruct (Py.endswith a "/") eqn:E.
    + apply endswith_split in E as [x ->]. rewrite app_assoc_str.
      by apply last_piece_after_sep.
    + by apply last_piece_after_sep.
Qed.

Lemma Path_name_join (a b : string) :
  component b -> name (Path (os_path_join a b)) = b.
Proof.
  intros [Hs Hk]. rewrite Path_name; rewrite last_piece_join; done.
Qed.

(** [with_suffix('.pdf')] leaves a path whose suffix is ['.pdf'] as it is. *)
Lemma with_suffix_same (p : t) (x : string) :
  name p = x +:+ ".pdf" -> x <> "" -> with_suffix p ".pdf" = Ok p.
Proof.
  intros Hn Hx.
  destruct (name_parts (name p) x "pdf" Hn eq_refl Hx ltac:(done)) as (Hs & _ & Hd).
  assert (suffix p = ".pdf") as Hsuf by (unfold suffix; by rewrite Hs, Hd).
  assert (name p <> "") as Hne by (rewrite Hn; by destruct x).
  unfold with_suffix. cbn [Py.contains Py.startswith Ascii.eqb Bool.eqb andb orb negb String.eqb].
  apply String.eqb_neq in Hne as Hne'. rewrite Hne', Hsuf.
  cbn [String.eqb Ascii.eqb Bool.eqb andb]. rewrite Hn at 1 2.
  rewrite length_app_str.
  replace (String.length x + String.length ".pdf" - String.length ".pdf")%nat
    with (String.length x) by lia.
  rewrite take_app_length, <- Hn, parts_removelast_name by done. by destruct p.
Qed.

(** The sanitized path of [name + '.pdf'] still ends in ['.pdf'], after
    a non-empty stem. *)
Lemma sanitize_pdf_name (local_path entry : string) (p : t) :
  Py.contains sep entry = false -> entry <> "" ->
  sanitize_path (os_path_join local_path (entry +:+ ".pdf")) = Ok p ->
  exists x, x <> "" /\ name p = x +:+ ".pdf".
Proof.
  intros Hs Hne H.
  assert (component (entry +:+ ".pdf")) as Hc.
  { apply long_component; [by rewrite contains_app, Hs|].
    rewrite length_app_str. simpl. lia. }
  pose proof (Path_name_join local_path _ Hc) as Hn.
  destruct (name_parts _ entry "pdf" Hn eq_refl Hne ltac:(done)) as (Hsuf & Ht & Hd).
  destruct (sanitize_cases _ _ H) as [_ [[_ ->]|[Hl ->]]]; [by exists entry|].
  exists (Py.take 245 (stem (Path (os_path_join local_path (entry +:+ ".pdf"))))).
  split.
  - intros E. apply (f_equal String.length) in E. rewrite length_take in E.
    unfold Py.len in Hl. change (String.length "") with 0%nat in E. lia.
  - unfold truncated. rewrite name_snoc. f_equal. unfold suffix. by rewrite Hsuf, Hd.
Qed.



End DownloadMore.

Section DownloadExtras.
Import PurePath.

(** X4.  When something (a file or a directory) is at the sanitized
    destination, the job makes the existence check and nothing else:
    the disk and both logs stay as they are and no chunk is fetched. *)
Theorem existing_destination_skipped (svc : service) (osf : os_faults)
    (file_id file_path mime_type : string) (w : world) (p : t) :
  sanitize_path file_path = Ok p ->
  is_Some (fs w !! str p) ->
  download_file svc osf file_id file_path mime_type w
  = (Ok tt, World (fs w) (failed_downloads_txt w) (failed_folders_txt w)
                  (trace w ++ [EvExists (str p)])).
Proof. intros Hp Hex. by rewrite (download_file_skip svc osf _ _ _ _ p). Qed.

Lemma existing_destination_skipped_witness :
  download_file broken_service no_faults "id1" "./test/data.csv" "text/csv"
    (World {["test/data.csv" := File [Byte.x61]]} [] [] [])
  = (Ok tt, World {["test/data.csv" := File [Byte.x61]]} [] []
                  [EvExists "test/data.csv"]).
Proof.
  assert (sanitize_path "./test/data.csv" = Ok (Path "./test/data.csv")) as H1
    by by vm_compute.
  assert (is_Some (fs (World {["test/data.csv" := File [Byte.x61]]} [] [] [])
                     !! str (Path "./test/data.csv"))) as H2
    by (vm_compute; eauto).
  exact (existing_destination_skipped broken_service no_faults "id1"
           "./test/data.csv" "text/csv" _ _ H1 H2).
Defined.



(** X6.  A job the traversal submits for an entry whose name is not
    empty and holds no ['/'] is fetched once: after it has ended well, a
    later run over the same destination finds the file and makes no
    request, for a converted document as for any other file. *)
Theorem plain_name_fetched_once (svc : service) (osf : os_faults)
    (local_path id entry mimeType : string) (w w1 : world) (p : t) :
  Py.contains sep entry = false -> entry <> "" ->
  sanitize_path (file_path (item_job local_path id entry mimeType)) = Ok p ->
  fs w !! str p = None ->
  download_file_try svc osf id (file_path (item_job local_path id entry mimeType))
    mimeType w = (Ok tt, w1) ->
  download_file svc osf id (file_path (item_job local_path id entry mimeType))
    mimeType (restart w1)
  = (Ok tt, emit (EvExists (str p)) (restart w1))
  /\ fetch_calls
       (trace (download_file svc osf id
                 (file_path (item_job local_path id entry mimeType))
                 mimeType (restart w1)).2) = 0%nat.
Proof.
  intros Hs Hne Hp Hnone Htry.
  apply (download_file_second_run svc osf _ _ _ w w1 p); try done.
  unfold final_path. unfold item_job in Hp. cbn [file_path] in Hp.
  destruct (Py.startswith mimeType google_apps_prefix); [|done].
  destruct (sanitize_pdf_name _ _ _ Hs Hne Hp) as (x & Hx & Hn).
  by eapply with_suffix_same.
Qed.

Lemma plain_name_fetched_once_witness :
  let w1 := (download_file_try two_chunks no_faults "d1"
               (file_path (item_job "./test" "d1" "Report" google_doc))
               google_doc empty_world).2 in
  fetch_calls
    (trace (download_file two_chunks no_faults "d1"
              (file_path (item_job "./test" "d1" "Report" google_doc))
              google_doc (restart w1)).2) = 0%nat.
Proof.
  cbv zeta.
  refine (proj2 (plain_name_fetched_once two_chunks no_faults "./test" "d1" "Report"
                   google_doc empty_world _ (Path "./test/Report.pdf")
                   _ _ _ _ _)); by vm_compute.
Defined.

(** X7.  A job whose destination has no file name records the
    [ValueError] of [sanitize_path] and does nothing else: no call to
    the disk or to the service is made. *)
Theorem nameless_destination_recorded (svc : service) (osf : os_faults)
    (file_id file_path mime_type : string) (w : world) :
  name (Path file_path) = "" ->
  download_file svc osf file_id file_path mime_type w
  = (Ok tt,
     World (fs w)
           (failed_downloads_txt w
              ++ [file_id +:+ "," +:+ file_path +:+ ","
                    +:+ str_exn (empty_name_error (Path file_path))
                    +:+ String "010" ""])
           (failed_folders_txt w)
           (trace w ++ [EvAppend "./failed_downloads.txt"
                          (file_id +:+ "," +:+ file_path +:+ ","
                             +:+ str_exn (empty_name_error (Path file_path))
                             +:+ String "010" "")])).
Proof.
  intros Hn. unfold download_file, download_file_try.
  by rewrite sanitize_path_empty_name.
Qed.

Lemma nameless_destination_recorded_witness :
  failed_downloads_txt
    (download_file two_chunks no_faults "id1" "/" "text/csv" empty_world).2
  = ["id1,/,PosixPath('/') has an empty name" +:+ String "010" ""]
  /\ trace (download_file two_chunks no_faults "id1" "/" "text/csv" empty_world).2
     = [EvAppend "./failed_downloads.txt"
          ("id1,/,PosixPath('/') has an empty name" +:+ String "010" "")].
Proof.
  rewrite (nameless_destination_recorded two_chunks no_faults "id1" "/" "text/csv"
             empty_world eq_refl).
  by split.
Defined.

(** X8.  The records of the failure logs are not escaped: a comma in a
    field moves the border between the fields, and two different
    failures give the same record. *)
Theorem failure_record_ambiguous (a b c error : string) (w : world) :
  write_failed_downloads (a +:+ "," +:+ b) c error w
  = write_failed_downloads a (b +:+ "," +:+ c) error w
  /\ write_failed_folder (a +:+ "," +:+ b) c error w
     = write_failed_folder a (b +:+ "," +:+ c) error w.
Proof.
  assert (failure_line (a +:+ "," +:+ b) c error
          = failure_line a (b +:+ "," +:+ c) error) as H
    by (unfold failure_line; by rewrite !app_assoc_str).
  unfold write_failed_downloads, write_failed_folder. by rewrite H.
Qed.



End DownloadExtras.

(** ** More on the job executor *)

Section ExecutorMore.
Import JobExecutor.

(** The futures that are done are futures of the pool. *)
Lemma completed_created (s0 s : t) :
  rtc step s0 s ->
  (forall f, f ∈ completed s0 -> (f < created s0)%nat) ->
  forall f, f ∈ completed s -> (f < created s)%nat.
Proof.
  induction 1 as [s|s1 s2 s3 Hstep _ IH]; [done|].
  intros H0. apply IH. destruct Hstep as [s f s' Hsub|s f Hf Hc].
  - unfold submit_job in Hsub.
    destruct (if Z.of_nat (length (futures s)) >=? max_workers s then _ else _);
      [|done].
    injection Hsub as <- <-. simpl. intros g Hg. apply H0 in Hg. lia.
  - simpl. intros g [->%elem_of_singleton|Hg]%elem_of_union; [done|by apply H0].
Qed.

Lemma run_from_init (k : Z) (s0 s : t) :
  init k = Ok s0 -> rtc step s0 s ->
  executor_inv s /\ forall f, f ∈ completed s -> (f < created s)%nat.
Proof.
  intros H0 Hrun. destruct (init_inv _ _ H0) as [Hinv0 _].
  split; [by destruct (run_inv _ _ Hrun Hinv0)|].
  apply (completed_created s0 s Hrun).
  unfold init in H0. destruct (k <=? 0); [done|]. injection H0 as <-.
  simpl. intros f Hf. by apply not_elem_of_empty in Hf.
Qed.

End ExecutorMore.

Section ExecutorExtras.
Import JobExecutor.

(** X10.  A [submit_job] call is blocked only while every tracked job is
    still running, and any of them can finish; as soon as one does, the
    call returns, hands out the next future and no longer tracks the
    finished one. *)
Theorem blocked_submit_unblocks (k : Z) (s0 s : t) (f : nat) :
  init k = Ok s0 -> rtc step s0 s ->
  submit_job s = None -> f ∈ futures s ->
  (f ∉ completed s)
  /\ step s (complete f s)
  /\ exists s', submit_job (complete f s) = Some (created s, s')
                /\ (f ∉ futures s').
Proof.
  intros H0 Hrun Hblocked Hf.
  destruct (run_from_init _ _ _ H0 Hrun) as [(Hpos & _ & Hlt & _ & _) _].
  assert (max_workers s <= Z.of_nat (length (futures s))) as Hfull.
  { destruct (Z.lt_ge_cases (Z.of_nat (length (futures s))) (max_workers s)); [|lia].
    by rewrite submit_job_below in Hblocked. }
  rewrite submit_job_full in Hblocked by done.
  destruct (wait_first_completed (completed s) (futures s)) eqn:E; [done|].
  apply wait_first_completed_blocked in E as [_ E].
  split; [by apply E|]. split; [apply step_complete; [by apply Hlt|by apply E]|].
  rewrite submit_job_full by done. simpl.
  destruct (wait_first_completed ({[f]} ∪ completed s) (futures s)) eqn:E'.
  - eexists. split; [done|]. simpl.
    intros [[Hn _]%list_elem_of_filter| ->%list_elem_of_singleton]%elem_of_app.
    + apply Hn. apply elem_of_union. left. by apply elem_of_singleton.
    + apply Hlt in Hf. lia.
  - apply wait_first_completed_blocked in E' as [_ E'].
    destruct (E' f Hf). apply elem_of_union. left. by apply elem_of_singleton.
Qed.

Lemma blocked_submit_unblocks_witness :
  step pool2_full (complete 0 pool2_full)
  /\ exists s', submit_job (complete 0 pool2_full) = Some (created pool2_full, s')
                /\ (0%nat ∉ futures s').
Proof.
  assert (rtc step pool2 pool2_full) as Hrun.
  { unfold pool2_full.
    eapply rtc_l; [apply step_after_submit; vm_compute; eauto|].
    eapply rtc_l; [apply step_after_submit; vm_compute; eauto|].
    apply rtc_refl. }
  refine (proj2 (blocked_submit_unblocks 2 pool2 pool2_full 0 eq_refl Hrun _ _)).
  - by vm_compute.
  - apply list_elem_of_In. vm_compute. tauto.
Defined.

(** X11.  The barrier can always be reached: from any state of a run,
    once the jobs in flight have finished, [wait_completion] returns;
    finishing does not touch the tracked list. *)
Theorem barrier_reachable (k : Z) (s0 s : t) :
  init k = Ok s0 -> rtc step s0 s ->
  rtc step s (complete_all (in_flight s) s)
  /\ wait_completion (complete_all (in_flight s) s) = Some tt
  /\ futures (complete_all (in_flight s) s) = futures s.
Proof.
  intros H0 Hrun. destruct (run_from_init _ _ _ H0 Hrun) as [Hinv _].
  destruct (wait_completion_reached s Hinv) as [H1 H2].
  split; [done|]. split; [done|].
  by destruct (complete_all_fields (in_flight s) s) as (_ & ? & _).
Qed.

Lemma barrier_reachable_witness :
  wait_completion pool2_drained = None
  /\ wait_completion (complete_all (in_flight pool2_drained) pool2_drained) = Some tt.
Proof.
  assert (rtc step pool2 pool2_drained) as Hrun.
  { unfold pool2_drained, pool2_full.
    eapply rtc_l; [apply step_after_submit; vm_compute; eauto|].
    eapply rtc_l; [apply step_after_submit; vm_compute; eauto|].
    eapply rtc_l; [apply (step_complete _ 0);
                   [vm_compute; lia|apply (bool_decide_unpack _); by vm_compute]|].
    eapply rtc_l; [apply step_after_submit; vm_compute; eauto|].
    apply rtc_refl. }
  split; [by vm_compute|].
  exact (proj1 (proj2 (barrier_reachable 2 pool2 pool2_drained eq_refl Hrun))).
Defined.

(** X12.  Right after a [submit_job] call that found the executor at
    capacity, the tracked futures are exactly the jobs in flight: no
    finished future is kept. *)
Theorem tracked_are_in_flight_after_drain (k : Z) (s0 s s' : t) (f : nat) :
  init k = Ok s0 -> rtc step s0 s ->
  max_workers s <= Z.of_nat (length (futures s)) ->
  submit_job s = Some (f, s') ->
  futures s' ≡ₚ in_flight s'.
Proof.
  intros H0 Hrun Hfull Hsub.
  destruct (run_from_init _ _ _ H0 Hrun) as [Hinv Hdone].
  destruct (submit_job_inv _ _ _ Hinv Hsub) as [(_ & Hnd & _ & _ & _) _].
  destruct Hinv as (_ & _ & Hlt & Hcov & _).
  rewrite submit_job_full in Hsub by done.
  destruct (wait_first_completed (completed s) (futures s)); [|done].
  injection Hsub as <- <-. simpl in Hnd.
  apply NoDup_Permutation; [done|apply NoDup_filter, NoDup_seq|].
  intros g. unfold in_flight. cbn [futures created completed].
  rewrite elem_of_app, !list_elem_of_filter, list_elem_of_singleton, elem_of_seq.
  split.
  - intros [[Hc Hg]| ->].
    + split; [done|]. apply Hlt in Hg. lia.
    + split; [|lia]. intros Hc. apply Hdone in Hc. lia.
  - intros [Hc Hg]. destruct (decide (g = created s)) as [->|Hne]; [by right|].
    left. split; [done|]. apply Hcov; [lia|done].
Qed.

Lemma tracked_are_in_flight_after_drain_witness :
  futures pool2_drained ≡ₚ in_flight pool2_drained.
Proof.
  assert (rtc step pool2 (complete 0 pool2_full)) as Hrun.
  { unfold pool2_full.
    eapply rtc_l; [apply step_after_submit; vm_compute; eauto|].
    eapply rtc_l; [apply step_after_submit; vm_compute; eauto|].
    eapply rtc_l; [apply (step_complete _ 0);
                   [vm_compute; lia|apply (bool_decide_unpack _); by vm_compute]|].
    apply rtc_refl. }
  apply (tracked_are_in_flight_after_drain 2 pool2 (complete 0 pool2_full)
           pool2_drained 2 eq_refl Hrun).
  - by vm_compute.
  - by vm_compute.
Defined.

End ExecutorExtras.

(** ** More on the traversal *)

Section TraversalMore.
Context (osf : os_faults).

Lemma crawl_keeps_refl (c : crawl) : crawl_keeps c c.
Proof. repeat split; [by left|done..]. Qed.

Lemma crawl_keeps_trans (c1 c2 c3 : crawl) :
  crawl_keeps c1 c2 -> crawl_keeps c2 c3 -> crawl_keeps c1 c3.
Proof.
  intros (Hfs & Hd & Hf & Hj) (Hfs' & Hd' & Hf' & Hj').
  split; [|split; [congruence|split; by etrans]].
  intros p. destruct (Hfs' p) as [E'|[E' Hn']], (Hfs p) as [E|[E Hn]].
  - left. congruence.
  - right. split; [congruence|done].
  - right. split; [done|]. intros d. rewrite <- E. apply Hn'.
  - right. by split.
Qed.

Lemma os_makedirs_keeps (p : string) (c : crawl) :
  crawl_keeps c (os_makedirs osf p c).2.
Proof.
  assert (crawl_keeps c (Crawl (emit (EvMakedirs p) (disk c)) (submitted c)))
    as Hemit by (split; [intros q; by left|done]).
  unfold os_makedirs. destruct (makedirs_fault osf p); [done|].
  change (fs (emit (EvMakedirs p) (disk c))) with (fs (disk c)).
  destruct (fs (disk c) !! p) as [[d|]|] eqn:E; [done|..].
  all: split; [|done]; intros q; simpl; destruct (decide (p = q)) as [<-|Hne];
    [|left; by rewrite lookup_insert_ne].
  - left. by rewrite lookup_insert_eq.
  - right. rewrite lookup_insert_eq. split; [done|]. intros d. by rewrite E.
Qed.

Lemma record_failed_folder_keeps (id name error : string) (c : crawl) :
  crawl_keeps c (record_failed_folder id name error c).
Proof.
  split; [by left|]. split; [done|]. split; [|done]. simpl. by apply prefix_app_r.
Qed.

Lemma submit_download_keeps (j : job) (c : crawl) :
  crawl_keeps c (submit_download j c).
Proof.
  split; [by left|]. split; [done|]. split; [done|]. simpl. by apply prefix_app_r.
Qed.

Lemma for_each_keeps (visit : item -> crawl -> result unit * crawl)
    (items : list item) :
  (forall it, In it items -> forall c, crawl_keeps c (visit it c).2) ->
  forall c, crawl_keeps c (for_each visit items c).2.
Proof.
  induction items as [|it items IH]; intros Hvisit c; [apply crawl_keeps_refl|].
  simpl. pose proof (Hvisit it (or_introl eq_refl) c) as Hit.
  destruct (visit it c) as [[[]|e] c1]; [|done].
  eapply crawl_keeps_trans; [exact Hit|].
  apply IH. intros it' Hin. apply Hvisit. by right.
Qed.

(** The traversal only makes directories, appends to the folder log
    and submits jobs. *)
Lemma list_all_files_keeps (pages : listing) :
  forall local_path c, crawl_keeps c (list_all_files osf pages local_path c).2.
Proof.
  assert (forall items local_path,
    (forall id name mime ch, In (Item id name mime ch) items ->
       forall local_path c, crawl_keeps c (list_all_files osf ch local_path c).2) ->
    forall c,
      crawl_keeps c (for_each (list_item osf (list_all_files osf) local_path) items c).2)
    as Hitems.
  { intros items local_path IH. apply for_each_keeps.
    intros [id name mime ch] Hin c. simpl.
    destruct (String.eqb mime folder_mime); [|apply submit_download_keeps].
    pose proof (os_makedirs_keeps (os_path_join local_path name) c) as Hmk.
    destruct (os_makedirs osf (os_path_join local_path name) c) as [[[]|e] c1];
      [|done].
    pose proof (IH id name mime ch Hin (os_path_join local_path name) c1) as Hch.
    destruct (list_all_files osf ch (os_path_join local_path name) c1)
      as [[[]|e] c2]; simpl in Hch |- *.
    - by eapply crawl_keeps_trans.
    - eapply crawl_keeps_trans; [exact Hmk|].
      eapply crawl_keeps_trans; [exact Hch|apply record_failed_folder_keeps]. }
  induction pages as [e|items IH|items rest IH IHrest] using listing_nested_ind;
    intros local_path c.
  - apply crawl_keeps_refl.
  - by apply Hitems.
  - simpl. pose proof (Hitems items local_path IH c) as Hrun.
    destruct (for_each _ items c) as [[[]|e] c1]; [|done].
    eapply crawl_keeps_trans; [exact Hrun|apply IHrest].
Qed.

(** Paging is transparent: the pages of a folder are gone through as
    one list of entries. *)
Lemma list_all_files_pages (pages : listing) (local_path : string) (c : crawl) :
  list_all_files osf pages local_path c
  = match for_each (list_item osf (list_all_files osf) local_path)
            (listing_items pages) c with
    | (Ok _, c') =>
        (match listing_error pages with None => Ok tt | Some e => Raise e end, c')
    | (Raise e, c') => (Raise e, c')
    end.
Proof.
  revert c. induction pages as [e|items|items rest IH]; intros c; simpl.
  - done.
  - by destruct (for_each _ items c) as [[[]|e] c'].
  - rewrite for_each_app.
    destruct (for_each _ items c) as [[[]|e] c']; [apply IH|done].
Qed.

End TraversalMore.

Section TraversalExtras.
Import PurePath.

(** X13.  Where every directory can be made, the traversal of a folder
    submits one job for every document below it, in depth-first
    listing order and down to the pages that cannot be listed, and it
    raises exactly when a page of the folder itself cannot be listed:
    that failure is not caught in [list_all_files]. *)
Theorem traversal_submits_all_jobs (osf : os_faults) (pages : listing)
    (local_path : string) (c : crawl) :
  makedirs_ok osf -> dirs_only (disk c) ->
  submitted (list_all_files osf pages local_path c).2
  = submitted c ++ all_jobs pages local_path
  /\ (list_all_files osf pages local_path c).1
     = match listing_error pages with None => Ok tt | Some e => Raise e end.
Proof.
  intros Hmk Hc.
  by destruct (list_all_files_spec osf pages Hmk local_path c Hc) as (_ & ? & ? & _).
Qed.

Lemma traversal_submits_all_jobs_witness :
  submitted (list_all_files no_faults
               (NextPage failing_sibling (ListError quota_error)) "./test" empty_crawl).2
  = [Job "x" "./test/b/data.csv" "text/csv"]
  /\ (list_all_files no_faults
        (NextPage failing_sibling (ListError quota_error)) "./test" empty_crawl).1
     = Raise quota_error.
Proof.
  refine (traversal_submits_all_jobs no_faults
            (NextPage failing_sibling (ListError quota_error)) "./test" empty_crawl _ _).
  - by intros p.
  - intros p n H. simpl in H. by rewrite lookup_empty in H.
Defined.

(** X14.  [os.makedirs] is called outside the [try]: when it raises for
    a folder entry, the traversal of the page raises the same exception,
    the entry is not listed, no record is written and the entries after
    it are not processed. *)
Theorem makedirs_failure_propagates (osf : os_faults) (local_path : string)
    (pre post : list item) (id name : string) (children : listing)
    (c c1 c2 : crawl) (e : exn) :
  for_each (list_item osf (list_all_files osf) local_path) pre c = (Ok tt, c1) ->
  os_makedirs osf (os_path_join local_path name) c1 = (Raise e, c2) ->
  list_all_files osf
    (LastPage (pre ++ Item id name folder_mime children :: post)) local_path c
  = (Raise e, c2)
  /\ submitted c2 = submitted c1
  /\ failed_folders_txt (disk c2) = failed_folders_txt (disk c1)
  /\ fs (disk c2) = fs (disk c1).
Proof.
  intros Hpre Hmk. split.
  - simpl. rewrite for_each_app, Hpre. simpl. by rewrite Hmk.
  - unfold os_makedirs in Hmk.
    destruct (makedirs_fault osf (os_path_join local_path name));
      [by injection Hmk as _ <-|].
    destruct (fs (emit _ (disk c1)) !! _) as [[d|]|]; [|done..].
    by injection Hmk as _ <-.
Qed.

Lemma makedirs_failure_propagates_witness :
  list_all_files no_faults (LastPage failing_sibling) "./test" file_in_the_way
  = (Raise (FileExistsError "./test/a"),
     Crawl (emit (EvMakedirs "./test/a") (disk file_in_the_way)) []).
Proof.
  refine (proj1 (makedirs_failure_propagates no_faults "./test" []
                   [Item "B" "b" folder_mime
                      (LastPage [Item "x" "data.csv" "text/csv" (LastPage [])])]
                   "A" "a" (ListError quota_error)
                   file_in_the_way file_in_the_way _ _ eq_refl _)).
  by vm_compute.
Defined.

(** X15.  Paging is transparent: a folder whose pages can all be listed
    is traversed as if its entries had come on one page. *)
Theorem pagination_transparent (osf : os_faults) (pages : listing)
    (local_path : string) (c : crawl) :
  listing_error pages = None ->
  list_all_files osf pages local_path c
  = list_all_files osf (LastPage (listing_items pages)) local_path c.
Proof.
  intros He. rewrite (list_all_files_pages osf pages), He.
  simpl. by destruct (for_each _ (listing_items pages) c) as [[[]|e] c'].
Qed.

Lemma pagination_transparent_witness :
  list_all_files no_faults two_pages "./test" empty_crawl
  = list_all_files no_faults (LastPage failing_sibling) "./test" empty_crawl.
Proof. exact (pagination_transparent no_faults two_pages "./test" empty_crawl eq_refl). Defined.

(** X16.  The traversal never changes or removes a file of the disk
    and never writes to the download failure log: all it adds to the
    disk is directories, where no file is. *)
Theorem traversal_keeps_files (osf : os_faults) (pages : listing)
    (local_path : string) (c : crawl) :
  (forall p d, fs (disk c) !! p = Some (File d) ->
     fs (disk (list_all_files osf pages local_path c).2) !! p = Some (File d))
  /\ (forall p n, fs (disk (list_all_files osf pages local_path c).2) !! p = Some n ->
        fs (disk c) !! p = Some n \/ n = Dir)
  /\ failed_downloads_txt (disk (list_all_files osf pages local_path c).2)
     = failed_downloads_txt (disk c).
Proof.
  destruct (list_all_files_keeps osf pages local_path c) as (Hfs & Hd & _).
  split; [|split; [|done]].
  - intros p d Hp. destruct (Hfs p) as [->|[_ Hn]]; [done|]. by destruct (Hn d).
  - intros p n Hp. destruct (Hfs p) as [E|[E _]]; rewrite E in Hp.
    + by left.
    + right. by injection Hp as <-.
Qed.



(** X18.  An ordinary entry whose name is a path component (not empty,
    not ['.'], without ['/']) of at most 250 characters is stored under
    exactly that name: its job's path passes [sanitize_path] unchanged
    and has the entry's name as its final component. *)
Theorem plain_name_kept (local_path id entry mimeType : string) :
  component entry -> Py.len entry <= 250 ->
  Py.startswith mimeType google_apps_prefix = false ->
  sanitize_path (file_path (item_job local_path id entry mimeType))
  = Ok (Path (os_path_join local_path entry))
  /\ name (Path (os_path_join local_path entry)) = entry.
Proof.
  intros Hc Hl Hg. unfold item_job. rewrite Hg. cbn [file_path].
  pose proof (Path_name_join local_path entry Hc) as Hn.
  split; [|done]. apply sanitize_path_short.
  - pose proof (stem_length (Path (os_path_join local_path entry))) as Hs.
    rewrite Hn in Hs. unfold Py.len in *. lia.
  - rewrite Hn. destruct Hc as [_ Hk]. by destruct entry.
Qed.

Lemma plain_name_kept_witness :
  sanitize_path (file_path (item_job "./test" "x" "data.csv" "text/csv"))
  = Ok (Path (os_path_join "./test" "data.csv"))
  /\ name (Path (os_path_join "./test" "data.csv")) = "data.csv".
Proof.
  apply (plain_name_kept "./test" "x" "data.csv" "text/csv"); by vm_compute.
Defined.

End TraversalExtras.

Section FolderLog.
Context (osf : os_faults).

(** Where every directory can be made, the traversal of a listing
    appends exactly the records of [all_failures] to the folder log. *)
Lemma list_all_files_log (pages : listing) :
  makedirs_ok osf ->
  forall local_path c, dirs_only (disk c) ->
    failed_folders_txt (disk (list_all_files osf pages local_path c).2)
    = failed_folders_txt (disk c)
        ++ map (fun '(id, path, error) => failure_line id path error)
               (all_failures pages local_path).
Proof.
  intros Hmk.
  assert (forall items local_path,
    (forall id name mime ch, In (Item id name mime ch) items ->
       forall local_path c, dirs_only (disk c) ->
         failed_folders_txt (disk (list_all_files osf ch local_path c).2)
         = failed_folders_txt (disk c)
             ++ map (fun '(id, path, error) => failure_line id path error)
                    (all_failures ch local_path)) ->
    forall c, dirs_only (disk c) ->
      exists c',
        for_each (list_item osf (list_all_files osf) local_path) items c = (Ok tt, c')
        /\ dirs_only (disk c')
        /\ failed_folders_txt (disk c')
           = failed_folders_txt (disk c)
               ++ map (fun '(id, path, error) => failure_line id path error)
                      (flat_map (item_failures all_failures local_path) items))
    as Hitems.
  { induction items as [|[id name mime ch] items IHitems]; intros local_path IH c Hc.
    - exists c. simpl. by rewrite app_nil_r.
    - assert (exists c1,
                list_item osf (list_all_files osf) local_path (Item id name mime ch) c
                = (Ok tt, c1)
                /\ dirs_only (disk c1)
                /\ failed_folders_txt (disk c1)
                   = failed_folders_txt (disk c)
                       ++ map (fun '(id, path, error) => failure_line id path error)
                            (item_failures all_failures local_path
                               (Item id name mime ch)))
        as (c1 & Hvisit & Hc1 & Hl1).
      { simpl. destruct (String.eqb mime folder_mime).
        - destruct (os_makedirs_ok osf (os_path_join local_path name) c Hmk Hc)
            as (c2 & -> & Hc2 & _ & Hl2).
          pose proof (IH id name mime ch (or_introl eq_refl)
                        (os_path_join local_path name) c2 Hc2) as Hl.
          destruct (list_all_files_spec osf ch Hmk (os_path_join local_path name) c2 Hc2)
            as (Hd & _ & Hr & _).
          rewrite Hl2 in Hl.
          destruct (list_all_files osf ch (os_path_join local_path name) c2)
            as [r c3]; simpl in Hd, Hl, Hr. subst r.
          destruct (listing_error ch) as [e|].
          + eexists. split; [done|]. split; [done|]. simpl.
            by rewrite Hl, map_app, app_assoc.
          + exists c3. by rewrite Hl, app_nil_r.
        - exists (submit_download
                    (Job id (os_path_join local_path
                               (if Py.startswith mime google_apps_prefix
                                then name +:+ ".pdf" else name)) mime) c).
          split; [done|]. split; [done|]. simpl. by rewrite app_nil_r. }
      destruct (IHitems local_path (fun i n m h Hin => IH i n m h (or_intror Hin)) c1 Hc1)
        as (c' & Hrest & Hc' & Hl').
      exists c'. cbn [for_each]. rewrite Hvisit. split; [done|]. split; [done|].
      rewrite Hl', Hl1. cbn [flat_map]. by rewrite map_app, app_assoc. }
  induction pages as [e|items IH|items rest IH IHrest] using listing_nested_ind;
    intros local_path c Hc.
  - simpl. by rewrite app_nil_r.
  - destruct (Hitems items local_path IH c Hc) as (c' & Hrun & Hc' & Hl').
    simpl. by rewrite Hrun.
  - destruct (Hitems items local_path IH c Hc) as (c' & Hrun & Hc' & Hl').
    pose proof (IHrest local_path c' Hc') as Hrest.
    simpl. rewrite Hrun.
    destruct (list_all_files osf rest local_path c') as [[[]|e] c''];
      simpl in Hrest |- *; by rewrite Hrest, Hl', map_app, app_assoc.
Qed.

Lemma final_path_ok (mime_type : string) (p : PurePath.t) :
  PurePath.name p <> "" -> exists dst, final_path mime_type p = Ok dst.
Proof.
  intros Hn. unfold final_path.
  destruct (Py.startswith mime_type google_apps_prefix); [|eauto].
  unfold PurePath.with_suffix.
  cbn [Py.contains Py.startswith Ascii.eqb Bool.eqb andb orb negb String.eqb].
  apply String.eqb_neq in Hn. rewrite Hn. eauto.
Qed.

End FolderLog.

Section LogExtras.
Import PurePath.

(** X19.  When a transfer raises after the temp file was opened, the
    temp file is left behind with exactly the bytes written before the
    exception, the destination is still missing and the record carries
    the text of that exception. *)
Theorem broken_transfer_leaves_partial_temp (svc : service) (osf : os_faults)
    (file_id file_path mime_type : string) (w : world) (p : t) (e : exn) :
  sanitize_path file_path = Ok p ->
  fs w !! str p = None ->
  open_fault osf (temp_path p) = None ->
  fs w !! temp_path p <> Some Dir ->
  transfer_error (svc (fetch_request file_id mime_type)) = Some e ->
  let w' := (download_file svc osf file_id file_path mime_type w).2 in
  fs w' !! temp_path p
  = Some (File (transfer_data (svc (fetch_request file_id mime_type))))
  /\ fs w' !! str p = None
  /\ failed_downloads_txt w'
     = failed_downloads_txt w
         ++ [file_id +:+ "," +:+ file_path +:+ "," +:+ str_exn e +:+ String "010" ""].
Proof.
  intros Hp Hnone Hopen Hdir Hte. cbv zeta.
  destruct (sanitize_wf _ _ Hp) as [_ Hn].
  destruct (final_path_ok mime_type p Hn) as [dst Hdst].
  assert (download_file_try svc osf file_id file_path mime_type w
          = (Raise e,
             (download_chunks (svc (fetch_request file_id mime_type)) (temp_path p)
                (FileIO_wb osf (temp_path p)
                   (emit (EvRequest (fetch_request file_id mime_type))
                      (emit (EvExists (str p)) w))).2).2)
          /\ (FileIO_wb osf (temp_path p)
                (emit (EvRequest (fetch_request file_id mime_type))
                   (emit (EvExists (str p)) w)))
             = (Ok tt, set_fs (<[temp_path p := File []]> (fs w))
                         (emit (EvOpen (temp_path p))
                            (emit (EvRequest (fetch_request file_id mime_type))
                               (emit (EvExists (str p)) w)))))
    as [Htry Hio].
  { assert (FileIO_wb osf (temp_path p)
              (emit (EvRequest (fetch_request file_id mime_type))
                 (emit (EvExists (str p)) w))
            = (Ok tt, set_fs (<[temp_path p := File []]> (fs w))
                        (emit (EvOpen (temp_path p))
                           (emit (EvRequest (fetch_request file_id mime_type))
                              (emit (EvExists (str p)) w))))) as Hio.
    { unfold FileIO_wb. rewrite Hopen.
      change (fs (emit _ (emit _ (emit _ w)))) with (fs w).
      by destruct (fs w !! temp_path p) as [[c|]|]. }
    split; [|done].
    unfold download_file_try. rewrite Hp.
    change (os_path_exists (str p) (emit (EvExists (str p)) w))
      with (os_path_exists (str p) w).
    unfold os_path_exists.
    rewrite bool_decide_eq_false_2 by (by apply eq_None_not_Some).
    unfold final_path, fetch_request in *.
    destruct (Py.startswith mime_type google_apps_prefix); cbv iota beta zeta.
    - rewrite Hdst.
      change (str (Path (str p +:+ ".temp"))) with (temp_path p). rewrite Hio.
      destruct (download_chunks_spec (svc (export_media file_id "application/pdf"))
                  (temp_path p)
                  (set_fs (<[temp_path p := File []]> (fs w))
                     (emit (EvOpen (temp_path p))
                        (emit (EvRequest (export_media file_id "application/pdf"))
                           (emit (EvExists (str p)) w)))) [])
        as (Hr & _); [apply lookup_insert_eq|].
      rewrite Hte in Hr. cbn [snd].
      by destruct (download_chunks _ _ _) as [[[]|e'] w2]; simpl in Hr;
        [|injection Hr as ->].
    - change (str (Path (str p +:+ ".temp"))) with (temp_path p). rewrite Hio.
      destruct (download_chunks_spec (svc (get_media file_id)) (temp_path p)
                  (set_fs (<[temp_path p := File []]> (fs w))
                     (emit (EvOpen (temp_path p))
                        (emit (EvRequest (get_media file_id))
                           (emit (EvExists (str p)) w)))) [])
        as (Hr & _); [apply lookup_insert_eq|].
      rewrite Hte in Hr. cbn [snd].
      by destruct (download_chunks _ _ _) as [[[]|e'] w2]; simpl in Hr;
        [|injection Hr as ->]. }
  unfold download_file. rewrite Htry. cbn [snd]. rewrite Hio. cbn [snd].
  destruct (download_chunks_spec (svc (fetch_request file_id mime_type)) (temp_path p)
              (set_fs (<[temp_path p := File []]> (fs w))
                 (emit (EvOpen (temp_path p))
                    (emit (EvRequest (fetch_request file_id mime_type))
                       (emit (EvExists (str p)) w)))) [])
    as (_ & Hfs & (Hlog & _)); [apply lookup_insert_eq|].
  cbn [fs write_failed_downloads failed_downloads_txt]. rewrite Hfs, Hlog.
  cbn [fs set_fs emit failed_downloads_txt].
  split; [by rewrite lookup_insert_eq|]. split; [|done].
  assert (temp_path p <> str p) as Hne by apply temp_path_fresh.
  by rewrite !lookup_insert_ne.
Qed.

Lemma broken_transfer_leaves_partial_temp_witness :
  let w' := (download_file broken_service no_faults "id1" "./test/data.csv" "text/csv"
               empty_world).2 in
  fs w' !! temp_path (Path "./test/data.csv") = Some (File [Byte.x78])
  /\ fs w' !! str (Path "./test/data.csv") = None
  /\ failed_downloads_txt w'
     = ["id1,./test/data.csv,connection reset" +:+ String "010" ""].
Proof.
  cbv zeta.
  destruct (broken_transfer_leaves_partial_temp broken_service no_faults
              "id1" "./test/data.csv" "text/csv" empty_world (Path "./test/data.csv")
              (Exn "HttpError" "connection reset"))
    as (H1 & H2 & H3); [by vm_compute..|].
  split; [exact H1|]. split; [exact H2|exact H3].
Defined.

(** X20.  Where every directory can be made, the traversal appends to
    the folder failure log exactly one record for every folder entry
    whose listing raises, the records of what lies below an entry before
    its own; the record is the line [id,path,error] of the entry's id,
    the local path of the folder it was listed in and the text of the
    exception. *)
Theorem folder_log_records_each_failure (osf : os_faults) (pages : listing)
    (local_path : string) (c : crawl) :
  makedirs_ok osf -> dirs_only (disk c) ->
  failed_folders_txt (disk (list_all_files osf pages local_path c).2)
  = failed_folders_txt (disk c)
      ++ map (fun '(id, path, error) =>
                id +:+ "," +:+ path +:+ "," +:+ error +:+ String "010" "")
             (all_failures pages local_path).
Proof. intros Hmk Hc. exact (list_all_files_log osf pages Hmk local_path c Hc). Qed.

Lemma folder_log_records_each_failure_witness :
  failed_folders_txt (disk (list_all_files no_faults nested_failures "./test" empty_crawl).2)
  = [ "I,./test/top,quota exceeded" +:+ String "010" "";
      "T,./test,quota exceeded" +:+ String "010" "" ].
Proof.
  refine (folder_log_records_each_failure no_faults nested_failures "./test"
            empty_crawl _ _).
  - by intros p.
  - intros p n H. simpl in H. by rewrite lookup_empty in H.
Defined.

End LogExtras.
